(** * Linear rate estimation: a model of [pyrate/linrate.py]

    The Python function [linear_rate] fits, pixel by pixel, a rate [v] to a
    stack of observations by covariance-weighted least squares and rejects
    the worst residual until the fit is clean (Danish method).

    Numbers.  A NumPy cell is modelled by [val]: either [NaN] or a finite
    real [Num r].  Arithmetic is the exact arithmetic of [R]; rounding,
    overflow and the narrowing to [float32] of the output grids are not
    modelled.  The SciPy routines reject non-finite input
    ([check_finite=True]), so arithmetic is only ever performed on finite
    values; the one place where a [NaN] is produced is [numpy.sqrt] of a
    negative number.

    Arrays.  An array is a nested list.  The interferograms of a call are
    taken to have phase grids of one shape, which line 30 needs for [obs]
    to be a three-dimensional block; a mask may have any shape, and one
    that does not have the shape of [obs] makes line 35 raise.

    Exceptions.  A Python exception is a value [Raise e] of the type [exc];
    nothing in [linear_rate] catches exceptions.

    Library routines.  [cholesky], [solve], [inv] and [qr] of scipy.linalg
    are modelled in the module [Linalg] by the textbook algorithms in exact
    arithmetic; [solve_sound] and [chol_sound] check that they return
    solutions and factors.

    Effects.  The caller's arrays live in a [store]; [linear_rate] returns
    the store it leaves behind together with its result.  The [print]
    statements of the source write to standard output only and are left
    out. *)

From Stdlib Require Import Reals Lra Lia List ZArith Bool Arith.
Import ListNotations.
Local Open Scope R_scope.

(** ** Cells, exceptions *)

Inductive val : Type :=
| NaN
| Num (r : R).

Definition isnan (x : val) : bool :=
  match x with NaN => true | Num _ => false end.

Definition Rltb (x y : R) : bool := if Rlt_dec x y then true else false.
Definition Rleb (x y : R) : bool := if Rle_dec x y then true else false.
Definition Reqb (x y : R) : bool := if Req_dec_T x y then true else false.

(** [x > m] on a cell: every comparison with [NaN] is false. *)
Definition val_gt (x : val) (m : R) : bool :=
  match x with NaN => false | Num r => Rltb m r end.

(** [numpy.sqrt]: [nan] on a negative argument. *)
Definition np_sqrt (x : R) : val :=
  if Rltb x 0 then NaN else Num (sqrt x).

Inductive exn : Type :=
| NotPositiveDefinite   (* LinAlgError raised by cholesky *)
| SingularMatrix        (* LinAlgError raised by solve and inv *)
| NotFinite             (* ValueError: array must not contain infs or NaNs *)
| EmptyReduction        (* ValueError: max of a zero-size array *)
| IndexError.

Inductive exc (A : Type) : Type :=
| Ok (a : A)
| Raise (e : exn).
Arguments Ok {A} a.
Arguments Raise {A} e.

Definition bind {A B : Type} (m : exc A) (k : A -> exc B) : exc B :=
  match m with
  | Ok a => k a
  | Raise e => Raise e
  end.

Notation "x <- m ;; k" := (bind m (fun x => k))
  (at level 61, m at next level, right associativity).

Fixpoint mapM {A B : Type} (f : A -> exc B) (l : list A) : exc (list B) :=
  match l with
  | [] => Ok []
  | x :: l' => y <- f x ;; ys <- mapM f l' ;; Ok (y :: ys)
  end.

(** ** Arrays *)

Definition vec := list R.
Definition mat := list (list R).
Definition grid := list (list val).
Definition cube (A : Type) := list (list (list A)).

Fixpoint map2 {A B C : Type} (f : A -> B -> C) (l : list A) (m : list B)
  : list C :=
  match l, m with
  | x :: l', y :: m' => f x y :: map2 f l' m'
  | _, _ => []
  end.

Fixpoint upd {A : Type} (n : nat) (f : A -> A) (l : list A) {struct l}
  : list A :=
  match l, n with
  | [], _ => []
  | x :: l', O => f x :: l'
  | x :: l', S n' => x :: upd n' f l'
  end.

Definition get2 (g : grid) (i j : nat) : val := nth j (nth i g []) NaN.
Definition set2 (g : grid) (i j : nat) (x : val) : grid :=
  upd i (upd j (fun _ => x)) g.

(** [a[ind]] with an integer index array: out of range raises. *)
Definition take {A : Type} (a : list A) (ind : list nat) : exc (list A) :=
  mapM (fun n => match nth_error a n with
                 | Some x => Ok x
                 | None => Raise IndexError
                 end) ind.

(** [nonzero(c)[0]] for a one-dimensional boolean array. *)
Fixpoint nonzero_from (n : nat) (c : list bool) : list nat :=
  match c with
  | [] => []
  | true :: c' => n :: nonzero_from (S n) c'
  | false :: c' => nonzero_from (S n) c'
  end.
Definition nonzero (c : list bool) : list nat := nonzero_from 0 c.

(** [delete(a, i)] for a scalar index. *)
Definition np_delete {A : Type} (a : list A) (i : nat) : exc (list A) :=
  if (i <? length a)%nat then Ok (firstn i a ++ skipn (S i) a)
  else Raise IndexError.

(** The finiteness check SciPy applies to its arguments. *)
Definition finite (a : list val) : exc vec :=
  mapM (fun x => match x with Num r => Ok r | NaN => Raise NotFinite end) a.

Definition dot (u w : vec) : R := fold_right Rplus 0 (map2 Rmult u w).
Definition mat_vec (m : mat) (x : vec) : vec := map (fun row => dot row x) m.
Definition column (j : nat) (m : mat) : vec := map (fun row => nth j row 0) m.
Definition transpose (m : mat) : mat :=
  map (fun j => column j m) (seq 0 (length (hd [] m))).
Definition diag (m : mat) : vec :=
  map (fun k => nth k (nth k m []) 0) (seq 0 (length m)).

(** [a.max()]: raises on an empty array. *)
Definition np_max (a : vec) : exc R :=
  match a with
  | [] => Raise EmptyReduction
  | x :: a' => Ok (fold_left Rmax a' x)
  end.

(** ** scipy.linalg in exact arithmetic *)

Module Linalg.

(** [cholesky(a, lower=True)]: the factor [L] with [L * L^T = a], computed
    column by column from the lower triangle of [a]; a pivot that is not
    positive raises. *)
Fixpoint chol (n : nat) (a : mat) : exc mat :=
  match n with
  | O => Ok []
  | S n' =>
      let a11 := hd 0 (hd [] a) in
      if Rleb a11 0 then Raise NotPositiveDefinite
      else
        let l11 := sqrt a11 in
        let l21 := map (fun row => hd 0 row / l11) (tl a) in
        let schur :=
          map2 (fun li row => map2 (fun lj x => x - li * lj) l21 (tl row))
               l21 (tl a) in
        L' <- chol n' schur ;;
        Ok ((l11 :: repeat 0 n') :: map2 cons l21 L')
  end.

Definition cholesky_lower (a : mat) : exc mat := chol (length a) a.

(** [cholesky(a)]: the upper factor [U] with [U^T * U = a], read from the
    upper triangle of [a]. *)
Definition cholesky_upper (a : mat) : exc mat :=
  L <- cholesky_lower (transpose a) ;; Ok (transpose L).

(** [solve(a, b)] for one right-hand side: Gaussian elimination on the
    augmented rows.  The solution of a non-singular system does not depend
    on the choice of pivots; the first row with a non-zero head is taken. *)
Fixpoint pick_pivot (rows : list (vec * R))
  : option ((vec * R) * list (vec * R)) :=
  match rows with
  | [] => None
  | row :: rest =>
      if Reqb (hd 0 (fst row)) 0
      then match pick_pivot rest with
           | Some (p, others) => Some (p, row :: others)
           | None => None
           end
      else Some (row, rest)
  end.

Definition eliminate (p : vec * R) (row : vec * R) : vec * R :=
  let f := hd 0 (fst row) / hd 0 (fst p) in
  (map2 (fun x y => x - f * y) (tl (fst row)) (tl (fst p)),
   snd row - f * snd p).

Fixpoint gauss (n : nat) (rows : list (vec * R)) : exc vec :=
  match n with
  | O => Ok []
  | S n' =>
      match pick_pivot rows with
      | None => Raise SingularMatrix
      | Some (p, others) =>
          xs <- gauss n' (map (eliminate p) others) ;;
          Ok ((snd p - dot (tl (fst p)) xs) / hd 0 (fst p) :: xs)
      end
  end.

Definition solve (a : mat) (b : vec) : exc vec :=
  gauss (length a) (combine a b).

(** [inv(a)]: the columns of the inverse solve [a x = e_j]. *)
Definition unit_vec (n j : nat) : vec :=
  map (fun k => if (k =? j)%nat then 1 else 0) (seq 0 n).

Definition inv (a : mat) : exc mat :=
  cols <- mapM (fun j => solve a (unit_vec (length a) j))
               (seq 0 (length a)) ;;
  Ok (map (fun i => map (fun c => nth i c 0) cols) (seq 0 (length a))).

(** [qr(A, mode='economic')] of a single column (LAPACK's elementary
    reflector): [A = Q * R] with [Q] a unit column and [R] a scalar.  When
    the entries below the first are all zero the reflector is the
    identity; otherwise [R] has the sign opposite to the first entry. *)
Definition qr (A : vec) : vec * R :=
  match A with
  | [] => ([], 0)
  | alpha :: x =>
      let xnorm := sqrt (dot x x) in
      if Reqb xnorm 0 then (1 :: map (fun _ => 0) x, alpha)
      else
        let norm := sqrt (alpha * alpha + dot x x) in
        let beta := if Rleb 0 alpha then - norm else norm in
        (map (fun a => a / beta) A, beta)
  end.

End Linalg.

(** ** The model of [linear_rate] *)

Import Linalg.

(** An interferogram object: its phase grid and its time span. *)
Record ifg : Type := { phase_data : grid; time_span : R }.

(** The arrays the caller passes in ([mst] is [None] when omitted). *)
Record store : Type := {
  s_ifgs : list ifg;
  s_vcm : mat;
  s_mst : option (cube Z)
}.

Definition set_mst (s : store) (m : cube Z) : store :=
  {| s_ifgs := s_ifgs s; s_vcm := s_vcm s; s_mst := Some m |}.

(** The three output grids. *)
Record grids : Type := { rate : grid; error : grid; samples : grid }.

(** [c[:, i, j]] *)
Definition pixel {A : Type} (d : A) (c : cube A) (i j : nat) : list A :=
  map (fun layer => nth j (nth i layer []) d) c.

(** Whether two nested arrays have one shape: the same number of entries
    at every level. *)
Fixpoint all2 {A B : Type} (p : A -> B -> bool) (l : list A) (m : list B)
  : bool :=
  match l, m with
  | [], [] => true
  | x :: l', y :: m' => p x y && all2 p l' m'
  | _, _ => false
  end.

Definition same_shape (mst : cube Z) (obs : cube val) : bool :=
  all2 (all2 (all2 (fun _ _ => true))) mst obs.

(** The cells of [mst], with 0 in the place of every cell whose observation
    is missing. *)
Definition zero_nans (mst : cube Z) (obs : cube val) : cube Z :=
  map2 (map2 (map2 (fun m o => if isnan o then 0%Z else m))) mst obs.

(** [mst[isnan(obs)] = 0] (line 35): a boolean index must have the shape of
    the array it indexes; with another shape the assignment raises and
    [mst] is left as it was. *)
Definition mask_nan (mst : cube Z) (obs : cube val) : exc (cube Z) :=
  if same_shape mst obs then Ok (zero_nans mst obs) else Raise IndexError.

(** [ones((nifgs, rows, cols))] (line 37) *)
Definition ones (nifgs rows cols : nat) : cube Z :=
  repeat (repeat (repeat 1%Z cols) rows) nifgs.

(** [nonzero(mst[:, i, j] == 1)[0]] (line 52) *)
Definition candidates (mst : cube Z) (i j : nat) : list nat :=
  nonzero (map (Z.eqb 1) (pixel 0%Z mst i j)).

(** [vcm[:, ind][ind, :]] (line 68) *)
Definition submatrix (vcm : mat) (ind : list nat) : exc mat :=
  cols <- mapM (fun row => take row ind) vcm ;; take cols ind.

(** The values of an array that has passed the finiteness check. *)
Definition values (a : list val) : vec :=
  map (fun x => match x with Num r => r | NaN => 0 end) a.

(** Lines 70-88: the weighted least-squares fit of [ifgv] against the time
    spans [B] under the covariance [V]; returns [v] and [err]. *)
Definition solver (ifgv : list val) (B : vec) (V : mat) : exc (R * val) :=
  T <- cholesky_lower V ;;
  A <- solve T B ;;
  b <- (y <- finite ifgv ;; solve T y) ;;
  let (Q, Rq) := qr A in
  let z := dot Q b in
  v <- solve [[Rq]] [z] ;;
  iV <- inv V ;;
  let err1 := mat_vec iV B in
  let err2 := dot B err1 in
  ie <- inv [[err2]] ;;
  let err := map np_sqrt (diag ie) in
  Ok (hd 0 v, hd NaN err).

(** [nonzero(wr == maxr)[0][0]] (line 100): the row of the first entry, in
    row-major order, that equals [maxr]. *)
Fixpoint first_row_from (n : nat) (c : list (list bool)) : exc nat :=
  match c with
  | [] => Raise IndexError
  | row :: c' => if existsb (fun x => x) row then Ok n
                 else first_row_from (S n) c'
  end.

(** [abs(w * r.transpose())] (line 96): [*] on arrays is the element-wise
    product; the column [r^T] is broadcast along the rows of [w]. *)
Definition scaled_rows (w : mat) (r : vec) : mat :=
  map2 (fun row ri => map (fun x => Rabs (x * ri)) row) w r.

(** Lines 91-100: the residuals and the largest whitened ratio; returns
    [maxr] and [maxi]. *)
Definition worst_residual (ifgv : list val) (B : vec) (V : mat) (v : R)
  : exc (R * nat) :=
  let r := map2 (fun t y => t * v - y) B (values ifgv) in
  w <- (iV <- inv V ;; cholesky_upper iV) ;;
  let wr := scaled_rows w r in
  maxr <- np_max (diag wr) ;;
  maxi <- first_row_from 0 (map (map (fun x => Reqb x maxr)) wr) ;;
  Ok (maxr, maxi).

Inductive verdict : Type :=
| Discard (maxi : nat)                 (* line 104 *)
| Save (v : R) (err : val) (n : nat).  (* lines 107-110 *)

Inductive outcome : Type :=
| Converged (v : R) (err : val) (n : nat)  (* left by [break] *)
| Insufficient                             (* the loop guard failed *)
| Failed (e : exn)                         (* an exception escaped *)
| Unfinished.                              (* the iteration budget ran out *)

Section Pixel.

Variable obs_ij : list val.   (* obs[:, i, j] *)
Variable span : vec.          (* span[0, :] *)
Variable vcm : mat.
Variable pthr : Z.
Variable nsig : R.

(** One pass through the body of the [while] loop (lines 60-110). *)
Definition body (ind : list nat) : exc verdict :=
  ifgv <- take obs_ij ind ;;
  B <- take span ind ;;
  V <- submatrix vcm ind ;;
  fit <- solver ifgv B V ;;
  let (v, err) := fit in
  worst <- worst_residual ifgv B V v ;;
  let (maxr, maxi) := worst in
  if Rltb nsig maxr then Ok (Discard maxi)
  else Ok (Save v err (length ifgv)).

(** The [while len(ind) >= pthr] loop, run for at most [fuel] passes. *)
Fixpoint while_loop (fuel : nat) (ind : list nat) : outcome :=
  if (Z.of_nat (length ind) <? pthr)%Z then Insufficient
  else
    match fuel with
    | O => Unfinished
    | S fuel' =>
        match body ind with
        | Raise e => Failed e
        | Ok (Save v err n) => Converged v err n
        | Ok (Discard maxi) =>
            match np_delete ind maxi with
            | Raise e => Failed e
            | Ok ind' => while_loop fuel' ind'
            end
        end
    end.

End Pixel.

(** [for x in xrange(n)] with a body that may raise. *)
Fixpoint for_each {S : Type} (l : list nat) (f : nat -> S -> exc S) (s : S)
  : exc S :=
  match l with
  | [] => Ok s
  | x :: l' => s' <- f x s ;; for_each l' f s'
  end.

Section Grid.

Variable obs : cube val.
Variable span : vec.
Variable vcm : mat.
Variable mst : cube Z.
Variable pthr : Z.
Variable nsig : R.

(** Lines 52-110 for the pixel [(i, j)]: what the [while] loop ends in.
    The loop is given one pass more than there are candidates, which
    always suffices (see [while_loop_finishes]). *)
Definition pixel_outcome (i j : nat) : outcome :=
  let ind := candidates mst i j in
  while_loop (pixel NaN obs i j) span vcm pthr nsig (S (length ind)) ind.

Definition run_pixel (i j : nat) (g : grids) : exc grids :=
  match pixel_outcome i j with
  | Converged v err n =>
      Ok {| rate := set2 (rate g) i j (Num v);
            error := set2 (error g) i j err;
            samples := set2 (samples g) i j (Num (INR n)) |}
  | Insufficient => Ok g
  | Failed e => Raise e
  | Unfinished => Ok g
  end.

Definition all_pixels (rows cols : nat) (g : grids) : exc grids :=
  for_each (seq 0 rows)
           (fun i => for_each (seq 0 cols) (fun j => run_pixel i j)) g.

End Grid.

(** [rows, cols = ifgs[0].phase_data.shape] (line 26) *)
Definition grid_shape (ifgs : list ifg) : exc (nat * nat) :=
  match ifgs with
  | [] => Raise IndexError
  | x0 :: _ => Ok (length (phase_data x0), length (hd [] (phase_data x0)))
  end.

(** Lines 30 and 31 *)
Definition obs_of (s : store) : cube val := map phase_data (s_ifgs s).
Definition span_of (s : store) : vec := map time_span (s_ifgs s).

(** Lines 33-37: a mask that was passed in is overwritten in place; without
    one a local array of ones is used.  Returns the store left behind and
    the mask the pixel loop reads, or the exception of line 35. *)
Definition update_mst (s : store) (rows cols : nat)
  : store * exc (cube Z) :=
  match s_mst s with
  | Some m =>
      match mask_nan m (obs_of s) with
      | Ok m' => (set_mst s m', Ok m')
      | Raise e => (s, Raise e)
      end
  | None => (s, Ok (ones (length (s_ifgs s)) rows cols))
  end.

(** [a[error > maxsig] = nan] *)
Definition reset_above (a error : grid) (maxsig : R) : grid :=
  map2 (map2 (fun x e => if val_gt e maxsig then NaN else x)) a error.

(** Lines 113-115, in the order of the source: each statement evaluates
    [error > maxsig] on the current contents of [error]. *)
Definition post_pass (g : grids) (maxsig : R) : grids :=
  let rate1 := reset_above (rate g) (error g) maxsig in
  let error1 := reset_above (error g) (error g) maxsig in
  let samples1 := reset_above (samples g) error1 maxsig in
  {| rate := rate1; error := error1; samples := samples1 |}.

Definition linear_rate (s : store) (pthr : Z) (nsig maxsig : R)
  : store * exc grids :=
  match grid_shape (s_ifgs s) with
  | Raise e => (s, Raise e)
  | Ok (rows, cols) =>
      let (s', updated) := update_mst s rows cols in
      let nans := repeat (repeat NaN cols) rows in
      let g0 := {| rate := nans; error := nans; samples := nans |} in
      (s', mst <- updated ;;
           g <- all_pixels (obs_of s) (span_of s) (s_vcm s) mst pthr nsig
                           rows cols g0 ;;
           Ok (post_pass g maxsig))
  end.

(** ** The rejection test in the words of the specification

    Section 4.3, steps 3 and 4: [wr] is the magnitude of the matrix-vector
    product [W . r^T], [maxr] its maximum and [maxi] the first index that
    attains it. *)

Fixpoint first_index_from (n : nat) (x : R) (a : vec) : exc nat :=
  match a with
  | [] => Raise IndexError
  | y :: a' => if Reqb y x then Ok n else first_index_from (S n) x a'
  end.

Definition spec_worst_residual (ifgv : list val) (B : vec) (V : mat) (v : R)
  : exc (R * nat) :=
  let r := map2 (fun t y => t * v - y) B (values ifgv) in
  W <- (iV <- inv V ;; cholesky_upper iV) ;;
  let wr := map Rabs (mat_vec W r) in
  maxr <- np_max wr ;;
  maxi <- first_index_from 0 maxr wr ;;
  Ok (maxr, maxi).

(** Lookup of one cell of a three-dimensional array. *)
Definition cell {A : Type} (c : cube A) (n i j : nat) : option A :=
  match nth_error c n with
  | Some layer =>
      match nth_error layer i with
      | Some row => nth_error row j
      | None => None
      end
  | None => None
  end.

(** A loop outcome other than running out of passes. *)
Definition finished (o : outcome) : bool :=
  match o with Unfinished => false | _ => true end.

(** ** Inputs used in the examples *)

Definition I2 : mat := [[1; 0]; [0; 1]].

(** A correlated pair of observations. *)
Definition V1 : mat := [[100; 30]; [30; 25]].
Definition B1 : vec := [40; 24].
Definition ifgv1 : list val := [Num 70; Num 17].


(** Two interferograms over a single pixel, on the line [y = 2 t]. *)
Definition pair_ifgs : list ifg :=
  [ {| phase_data := [[Num 6]]; time_span := 3 |};
    {| phase_data := [[Num 8]]; time_span := 4 |} ].
Definition pair_store : store :=
  {| s_ifgs := pair_ifgs; s_vcm := I2; s_mst := None |}.

(** The same interferograms with a mask of three layers. *)
Definition long_mask_store : store :=
  {| s_ifgs := pair_ifgs; s_vcm := I2;
     s_mst := Some [[[1%Z]]; [[1%Z]]; [[1%Z]]] |}.

(** The same pixel with the second observation missing. *)
Definition gap_ifgs : list ifg :=
  [ {| phase_data := [[Num 6]]; time_span := 3 |};
    {| phase_data := [[NaN]]; time_span := 4 |} ].
Definition masked_store : store :=
  {| s_ifgs := gap_ifgs; s_vcm := I2; s_mst := Some [[[1%Z]]; [[1%Z]]] |}.
Definition unmasked_store : store :=
  {| s_ifgs := gap_ifgs; s_vcm := I2; s_mst := None |}.

(** Three interferograms over two pixels; the covariance of the first
    interferogram is negative, and the mask gives it to the first pixel
    only. *)
Definition split_ifgs : list ifg :=
  [ {| phase_data := [[Num 5; Num 5]]; time_span := 1 |};
    {| phase_data := [[Num 6; Num 6]]; time_span := 3 |};
    {| phase_data := [[Num 8; Num 8]]; time_span := 4 |} ].
Definition split_vcm : mat := [[-1; 0; 0]; [0; 1; 0]; [0; 0; 1]].
Definition split_mst : cube Z :=
  [ [[1; 0]]; [[1; 1]]; [[0; 1]] ]%Z.
Definition split_store : store :=
  {| s_ifgs := split_ifgs; s_vcm := split_vcm; s_mst := Some split_mst |}.

(** An [n] by [n] array. *)
Definition square (n : nat) (a : mat) : Prop :=
  length a = n /\ forall row, In row a -> length row = n.

(** Every sample count that is a number is at least [pthr]. *)
Definition counts_ok (pthr : Z) (g : grids) : Prop :=
  forall i j x, get2 (samples g) i j = Num x -> IZR pthr <= x.

(** ** Shapes and reports *)

(** A grid of [rows] rows with [cols] cells each. *)
Definition shaped (rows cols : nat) (g : grid) : Prop :=
  length g = rows /\ forall row, In row g -> length row = cols.

Definition grids_shaped (rows cols : nat) (g : grids) : Prop :=
  shaped rows cols (rate g) /\ shaped rows cols (error g) /\
  shaped rows cols (samples g).

(** The rate, error and sample count of one pixel. *)
Definition triple_at (g : grids) (i j : nat) : val * val * val :=
  (get2 (rate g) i j, get2 (error g) i j, get2 (samples g) i j).

(** What lines 107-109 leave at a pixel whose loop ended in [o], over the
    previous contents [old]. *)
Definition stamp (o : outcome) (old : val * val * val) : val * val * val :=
  match o with
  | Converged v err n => (Num v, err, Num (INR n))
  | _ => old
  end.

(** What lines 113-115 make of the triple of one pixel. *)
Definition capped (maxsig : R) (t : val * val * val) : val * val * val :=
  let '(r, e, n) := t in
  if val_gt e maxsig then (NaN, NaN, n) else (r, e, n).

(** The exceptions that come from the numbers rather than from the
    indexing: a matrix that is not positive definite, a singular system, a
    value that is not finite. *)
Definition numerical (e : exn) : Prop :=
  e = NotPositiveDefinite \/ e = SingularMatrix \/ e = NotFinite.

(** Interferograms of one shape, a covariance matrix with one row and one
    column per interferogram and, when passed in, a mask of the shape of
    the observations. *)
Definition well_shaped (s : store) (rows cols : nat) : Prop :=
  (forall x, In x (s_ifgs s) -> shaped rows cols (phase_data x)) /\
  square (length (s_ifgs s)) (s_vcm s) /\
  (forall m, s_mst s = Some m ->
     length m = length (s_ifgs s) /\
     forall layer, In layer m ->
       length layer = rows /\ forall row, In row layer -> length row = cols).

(** ** Comparisons *)

Lemma Rltb_true x y : x < y -> Rltb x y = true.
Proof. unfold Rltb; destruct (Rlt_dec x y); tauto. Qed.

Lemma Rltb_false x y : y <= x -> Rltb x y = false.
Proof. unfold Rltb; destruct (Rlt_dec x y); auto; lra. Qed.

Lemma Rleb_true x y : x <= y -> Rleb x y = true.
Proof. unfold Rleb; destruct (Rle_dec x y); tauto. Qed.

Lemma Rleb_false x y : y < x -> Rleb x y = false.
Proof. unfold Rleb; destruct (Rle_dec x y); auto; lra. Qed.

Lemma Reqb_true x y : x = y -> Reqb x y = true.
Proof. unfold Reqb; destruct (Req_dec_T x y); tauto. Qed.

Lemma Reqb_false x y : x <> y -> Reqb x y = false.
Proof. unfold Reqb; destruct (Req_dec_T x y); tauto. Qed.

Lemma Reqb_eq x y : Reqb x y = true <-> x = y.
Proof. unfold Reqb; destruct (Req_dec_T x y); split; auto; discriminate. Qed.

Lemma Rltb_lt x y : Rltb x y = true <-> x < y.
Proof. unfold Rltb; destruct (Rlt_dec x y); split; auto; discriminate. Qed.

Lemma sqrt_of_square x y : 0 <= y -> x = y * y -> sqrt x = y.
Proof. intros Hy ->. now apply sqrt_square. Qed.

(** ** The linear-algebra kernel on one and two dimensions *)


Lemma cholesky_lower_2 a b c d :
  0 < a -> 0 < d - c * c / a ->
  cholesky_lower [[a; b]; [c; d]]
  = Ok [[sqrt a; 0]; [c / sqrt a; sqrt (d - c * c / a)]].
Proof.
  intros Ha Hd. unfold cholesky_lower; simpl.
  rewrite Rleb_false by assumption.
  assert (Hs : sqrt a * sqrt a = a) by (apply sqrt_sqrt; lra).
  assert (Hn : sqrt a <> 0) by (intros E; rewrite E in Hs; lra).
  replace (d - c / sqrt a * (c / sqrt a)) with (d - c * c / a)
    by (rewrite <- Hs at 1; field; auto).
  now rewrite Rleb_false.
Qed.

Lemma cholesky_lower_fails a row rows :
  a <= 0 -> cholesky_lower ((a :: row) :: rows) = Raise NotPositiveDefinite.
Proof. intros Ha. unfold cholesky_lower; simpl. now rewrite Rleb_true. Qed.

Lemma solve_1 a b : a <> 0 -> solve [[a]] [b] = Ok [b / a].
Proof.
  intros Ha. unfold solve; simpl.
  rewrite Reqb_false by assumption. simpl.
  f_equal. f_equal. unfold dot; simpl. lra.
Qed.

Lemma solve_1_singular b : solve [[0]] [b] = Raise SingularMatrix.
Proof. unfold solve; simpl. now rewrite Reqb_true. Qed.

Lemma solve_2 a b c d e f :
  a <> 0 -> a * d - b * c <> 0 ->
  solve [[a; b]; [c; d]] [e; f]
  = Ok [(d * e - b * f) / (a * d - b * c); (a * f - c * e) / (a * d - b * c)].
Proof.
  intros Ha Hdet. unfold solve; simpl.
  rewrite Reqb_false by assumption. simpl.
  unfold eliminate; simpl.
  assert (Hp : d - c / a * b <> 0).
  { intros E. apply Hdet. replace (a * d - b * c) with (a * (d - c / a * b))
      by (field; auto). rewrite E. lra. }
  rewrite Reqb_false by assumption. simpl.
  unfold dot; simpl. f_equal. f_equal; [| f_equal]; field; auto.
Qed.

Lemma inv_1 a : a <> 0 -> inv [[a]] = Ok [[1 / a]].
Proof. intros Ha. unfold inv; cbn -[solve]. now rewrite solve_1. Qed.

Lemma inv_1_singular : inv [[0]] = Raise SingularMatrix.
Proof. unfold inv; cbn -[solve]. now rewrite solve_1_singular. Qed.

Lemma inv_2 a b c d :
  a <> 0 -> a * d - b * c <> 0 ->
  inv [[a; b]; [c; d]]
  = Ok [[d / (a * d - b * c); - b / (a * d - b * c)];
        [- c / (a * d - b * c); a / (a * d - b * c)]].
Proof.
  intros Ha Hdet. unfold inv; cbn -[solve].
  rewrite !solve_2 by assumption. cbn.
  f_equal. f_equal; [| f_equal]; f_equal; try f_equal; field; auto.
Qed.

(** ** Dot products and the reflector *)

Lemma dot_cons a u b w : dot (a :: u) (b :: w) = a * b + dot u w.
Proof. reflexivity. Qed.

Lemma dot_self_nonneg x : 0 <= dot x x.
Proof.
  induction x as [| a x IH]; [unfold dot; simpl; lra |].
  rewrite dot_cons. nra.
Qed.

Lemma dot_self_zero x b : dot x x = 0 -> dot x b = 0.
Proof.
  revert b; induction x as [| a x IH]; intros b H; [reflexivity |].
  destruct b as [| b0 b]; [reflexivity |].
  rewrite dot_cons in *. pose proof (dot_self_nonneg x) as Hx.
  assert (Ha : a = 0) by nra. assert (H0 : dot x x = 0) by nra.
  rewrite (IH b H0), Ha. lra.
Qed.

Lemma dot_zeros (x : vec) b : dot (map (fun _ => 0) x) b = 0.
Proof.
  revert b; induction x as [| a x IH]; intros [| b0 b]; try reflexivity.
  simpl map. rewrite dot_cons, IH. lra.
Qed.

Lemma dot_scaled c x b : c <> 0 -> dot (map (fun a => a / c) x) b = dot x b / c.
Proof.
  intros Hc. revert b; induction x as [| a x IH]; intros [| b0 b];
    try (unfold dot; simpl; field; assumption).
  simpl map. rewrite !dot_cons, IH. field. assumption.
Qed.

(** The estimate obtained from the factors of a column does not depend on
    the sign the reflector gives to [R]. *)
Lemma qr_fit A b Q Rq :
  qr A = (Q, Rq) -> dot A A <> 0 ->
  solve [[Rq]] [dot Q b] = Ok [dot A b / dot A A].
Proof.
  destruct A as [| alpha x]; [intros _ H; exfalso; apply H; reflexivity |].
  unfold qr. pose proof (dot_self_nonneg x) as Hx.
  destruct (Reqb (sqrt (dot x x)) 0) eqn:E.
  - apply Reqb_eq in E. apply sqrt_eq_0 in E; [| assumption].
    intros [= <- <-] HA. rewrite dot_cons, E in HA.
    assert (Ha : alpha <> 0) by (intros ->; apply HA; lra).
    rewrite solve_1 by assumption. do 2 f_equal.
    destruct b as [| b0 b].
    + change (dot (1 :: map (fun _ => 0) x) []) with 0.
      change (dot (alpha :: x) []) with 0. unfold Rdiv. now rewrite !Rmult_0_l.
    + rewrite !dot_cons, dot_zeros, (dot_self_zero x b E), E. field.
      assumption.
  - intros [= <- <-] HA. rewrite dot_cons in HA.
    set (norm := sqrt (alpha * alpha + dot x x)).
    assert (Hs : norm * norm = alpha * alpha + dot x x)
      by (apply sqrt_sqrt; nra).
    assert (Hn : norm <> 0) by (intros E0; rewrite E0 in Hs; lra).
    set (beta := if Rleb 0 alpha then - norm else norm).
    assert (Hb : beta * beta = alpha * alpha + dot x x)
      by (unfold beta; destruct (Rleb 0 alpha); lra).
    assert (Hb0 : beta <> 0)
      by (unfold beta; destruct (Rleb 0 alpha); lra).
    rewrite solve_1 by assumption. do 2 f_equal.
    change (alpha / beta :: map (fun a => a / beta) x)
      with (map (fun a => a / beta) (alpha :: x)).
    rewrite (dot_scaled beta (alpha :: x) b Hb0).
    rewrite (dot_cons alpha x alpha x), <- Hb. field. assumption.
Qed.

(** ** The solver on two observations with identity covariance *)

Lemma cholesky_lower_I2 : cholesky_lower I2 = Ok I2.
Proof.
  unfold I2. rewrite cholesky_lower_2 by lra.
  do 2 f_equal; [| f_equal]; f_equal; try f_equal;
    try (apply sqrt_of_square; lra).
  rewrite sqrt_1; lra.
Qed.

Lemma inv_I2 : inv I2 = Ok I2.
Proof.
  unfold I2. rewrite inv_2 by lra.
  do 2 f_equal; [| f_equal]; f_equal; try f_equal; lra.
Qed.

Lemma solve_I2 e f : solve I2 [e; f] = Ok [e; f].
Proof.
  unfold I2. rewrite solve_2 by lra.
  do 2 f_equal; [| f_equal]; lra.
Qed.

Lemma solver_identity_2 t1 t2 y1 y2 :
  t1 * t1 + t2 * t2 <> 0 ->
  solver [Num y1; Num y2] [t1; t2] I2
  = Ok ((t1 * y1 + t2 * y2) / (t1 * t1 + t2 * t2),
        Num (sqrt (1 / (t1 * t1 + t2 * t2)))).
Proof.
  intros Ht. unfold solver.
  rewrite cholesky_lower_I2. cbn [bind finite mapM].
  rewrite !solve_I2. cbn [bind].
  destruct (qr [t1; t2]) as [Q Rq] eqn:Eqr.
  assert (Hd : dot [t1; t2] [t1; t2] = t1 * t1 + t2 * t2)
    by (unfold dot; simpl; lra).
  rewrite (qr_fit [t1; t2] [y1; y2] Q Rq Eqr) by (rewrite Hd; assumption).
  rewrite inv_I2. cbn [bind].
  replace (dot [t1; t2] (mat_vec I2 [t1; t2])) with (t1 * t1 + t2 * t2)
    by (unfold I2, mat_vec, dot; simpl; lra).
  rewrite inv_1 by assumption. cbn [bind diag length seq map nth hd].
  unfold np_sqrt. rewrite Rltb_false.
  - do 2 f_equal. rewrite Hd. unfold dot; simpl. f_equal; lra.
  - pose proof (Rinv_0_lt_compat (t1 * t1 + t2 * t2)). unfold Rdiv. nra.
Qed.

(** ** A correlated pair: the run used against the matrix-product reading *)

Ltac cells := repeat (f_equal; try lra).

Lemma cholesky_lower_V1 : cholesky_lower V1 = Ok [[10; 0]; [3; 4]].
Proof.
  unfold V1. rewrite cholesky_lower_2 by lra.
  replace (sqrt 100) with 10 by (symmetry; apply sqrt_of_square; lra).
  replace (sqrt (25 - 30 * 30 / 100)) with 4
    by (symmetry; apply sqrt_of_square; lra).
  cells.
Qed.

Lemma inv_V1 : inv V1 = Ok [[1/64; -3/160]; [-3/160; 1/16]].
Proof. unfold V1. rewrite inv_2 by lra. cells. Qed.

Lemma cholesky_upper_inv_V1 :
  cholesky_upper [[1/64; -3/160]; [-3/160; 1/16]]
  = Ok [[1/8; -3/20]; [0; 1/5]].
Proof.
  unfold cholesky_upper. cbn [transpose hd length seq map column nth].
  rewrite cholesky_lower_2 by lra.
  replace (sqrt (1 / 64)) with (1/8)
    by (symmetry; apply sqrt_of_square; lra).
  replace (sqrt (1 / 16 - -3 / 160 * (-3 / 160) / (1 / 64))) with (1/5)
    by (symmetry; apply sqrt_of_square; lra).
  cbn [bind transpose hd length seq map column nth]. cells.
Qed.

Lemma solver_V1 : solver ifgv1 B1 V1 = Ok (1, Num (1/5)).
Proof.
  unfold solver, ifgv1, B1. rewrite cholesky_lower_V1.
  cbn [bind finite mapM]. rewrite !solve_2 by lra. cbn [bind].
  match goal with |- context [qr ?A] =>
    replace A with [4; 3] by cells end.
  match goal with |- context [dot _ ?b] =>
    replace b with [7; -1] by cells end.
  destruct (qr [4; 3]) as [Q Rq] eqn:Eqr.
  rewrite (qr_fit [4; 3] [7; -1] Q Rq Eqr) by (unfold dot; simpl; lra).
  rewrite inv_V1. cbn [bind].
  replace (dot [40; 24] (mat_vec [[1/64; -3/160]; [-3/160; 1/16]]
                                 [40; 24])) with 25
    by (unfold mat_vec, dot; simpl; lra).
  rewrite inv_1 by lra. cbn [bind diag length seq map nth hd].
  unfold np_sqrt. rewrite Rltb_false by lra.
  replace (sqrt (1 / 25)) with (1/5)
    by (symmetry; apply sqrt_of_square; lra).
  do 2 f_equal. unfold dot; simpl. lra.
Qed.

Lemma Rabs_is x c : 0 <= c -> x = c \/ x = - c -> Rabs x = c.
Proof.
  intros Hc [-> | ->]; [now apply Rabs_pos_eq |].
  rewrite Rabs_Ropp. now apply Rabs_pos_eq.
Qed.

Ltac abs_cells :=
  repeat (f_equal; try (apply Rabs_is; [lra | (left; lra) || (right; lra)])).

Lemma factor_V1 :
  (iV <- inv V1 ;; cholesky_upper iV) = Ok [[1/8; -3/20]; [0; 1/5]].
Proof. rewrite inv_V1. cbn [bind]. apply cholesky_upper_inv_V1. Qed.

Lemma scaled_rows_V1 :
  scaled_rows [[1/8; -3/20]; [0; 1/5]] [40 * 1 - 70; 24 * 1 - 17]
  = [[15/4; 9/2]; [0; 7/5]].
Proof. cbn [scaled_rows map2 map]. abs_cells. Qed.

Lemma worst_residual_V1 : worst_residual ifgv1 B1 V1 1 = Ok (15/4, 0%nat).
Proof.
  unfold worst_residual, ifgv1, B1. rewrite factor_V1.
  cbn [bind values map map2]. rewrite scaled_rows_V1.
  cbn [diag length seq map nth np_max fold_left bind].
  rewrite Rmax_left by lra. cbn [bind map first_row_from existsb].
  rewrite (Reqb_true (15/4) (15/4)) by reflexivity. reflexivity.
Qed.

Lemma spec_worst_residual_V1 :
  spec_worst_residual ifgv1 B1 V1 1 = Ok (24/5, 0%nat).
Proof.
  unfold spec_worst_residual, ifgv1, B1. rewrite factor_V1.
  cbn [bind values map map2 mat_vec].
  match goal with |- context [np_max ?a] =>
    replace a with [24/5; 7/5]
      by (symmetry; unfold dot; cbn [map2 fold_right]; abs_cells) end.
  cbn [np_max fold_left bind]. rewrite Rmax_left by lra.
  cbn [bind first_index_from].
  rewrite (Reqb_true (24/5) (24/5)) by reflexivity. reflexivity.
Qed.

Lemma max_entry_V1 :
  np_max (concat (scaled_rows [[1/8; -3/20]; [0; 1/5]]
                              [40 * 1 - 70; 24 * 1 - 17])) = Ok (9/2).
Proof.
  rewrite scaled_rows_V1. cbn [concat app np_max fold_left].
  f_equal. rewrite (Rmax_right (15/4)) by lra.
  rewrite (Rmax_left (9/2) 0), (Rmax_left (9/2) (7/5)) by lra.
  reflexivity.
Qed.

Lemma body_V1 :
  body ifgv1 B1 V1 4 [0; 1]%nat = Ok (Save 1 (Num (1/5)) 2).
Proof.
  unfold body.
  assert (Ei : take ifgv1 [0; 1]%nat = Ok ifgv1) by reflexivity.
  assert (EB : take B1 [0; 1]%nat = Ok B1) by reflexivity.
  assert (EV : submatrix V1 [0; 1]%nat = Ok V1) by reflexivity.
  rewrite Ei, EB, EV. cbn [bind].
  rewrite solver_V1. cbn [bind]. rewrite worst_residual_V1. cbn [bind].
  rewrite Rltb_false by lra. reflexivity.
Qed.

(** ** A negatively correlated pair: the run in which another observation
    than the worst is removed *)
















(** ** The rejection loop *)

Lemma mapM_length {A B : Type} (f : A -> exc B) l l' :
  mapM f l = Ok l' -> length l' = length l.
Proof.
  revert l'; induction l as [| x l IH]; intros l'; simpl.
  - now intros [= <-].
  - destruct (f x); [| discriminate]. simpl.
    destruct (mapM f l); [| discriminate]. simpl.
    intros [= <-]. simpl. f_equal. now apply IH.
Qed.

Lemma take_length {A : Type} (a : list A) ind l :
  take a ind = Ok l -> length l = length ind.
Proof. apply mapM_length. Qed.

Lemma np_delete_length {A : Type} (a a' : list A) i :
  np_delete a i = Ok a' -> S (length a') = length a.
Proof.
  unfold np_delete. destruct (i <? length a)%nat eqn:E; [| discriminate].
  apply Nat.ltb_lt in E. intros H.
  assert (Ha : a' = firstn i a ++ skipn (S i) a) by congruence.
  rewrite Ha, length_app, length_firstn, length_skipn. lia.
Qed.

Section LoopFacts.

Variable obs_ij : list val.
Variable span : vec.
Variable vcm : mat.
Variable pthr : Z.
Variable nsig : R.

Let body1 := body obs_ij span vcm nsig.
Let loop := while_loop obs_ij span vcm pthr nsig.

Lemma body_save_length ind v err n :
  body1 ind = Ok (Save v err n) -> n = length ind.
Proof.
  unfold body1, body.
  destruct (take obs_ij ind) as [ifgv |] eqn:Ei; [| discriminate].
  cbn [bind].
  destruct (take span ind) as [B |]; [| discriminate]. cbn [bind].
  destruct (submatrix vcm ind) as [V |]; [| discriminate]. cbn [bind].
  destruct (solver ifgv B V) as [[v0 err0] |]; [| discriminate].
  cbn [bind].
  destruct (worst_residual ifgv B V v0) as [[maxr maxi] |];
    [| discriminate].
  cbn [bind]. destruct (Rltb nsig maxr); [discriminate |].
  intros [= _ _ <-]. now apply take_length in Ei.
Qed.

(** The loop stops within [len(ind) - pthr + 1] passes. *)
Lemma while_loop_bounded fuel : forall ind,
  (Z.of_nat (length ind) - pthr + 1 <= Z.of_nat fuel)%Z ->
  finished (loop fuel ind) = true.
Proof.
  induction fuel as [| fuel IH]; intros ind Hf; unfold loop; simpl.
  - destruct (Z.of_nat (length ind) <? pthr)%Z eqn:E; [reflexivity |].
    apply Z.ltb_ge in E. lia.
  - destruct (Z.of_nat (length ind) <? pthr)%Z eqn:E; [reflexivity |].
    destruct (body obs_ij span vcm nsig ind) as [[maxi | v err n] | e];
      try reflexivity.
    destruct (np_delete ind maxi) as [ind' | e] eqn:Ed; [| reflexivity].
    apply np_delete_length in Ed. apply IH. lia.
Qed.

(** One pass more than there are candidates is always enough. *)
Lemma while_loop_finishes fuel : forall ind,
  (length ind < fuel)%nat -> finished (loop fuel ind) = true.
Proof.
  induction fuel as [| fuel IH]; intros ind Hf; [lia |]. unfold loop; simpl.
  destruct (Z.of_nat (length ind) <? pthr)%Z; [reflexivity |].
  destruct (body obs_ij span vcm nsig ind) as [[maxi | v err n] | e];
    try reflexivity.
  destruct (np_delete ind maxi) as [ind' | e] eqn:Ed; [| reflexivity].
  apply np_delete_length in Ed. apply IH. lia.
Qed.

(** A recorded sample count is the size of a candidate set that passed
    the loop guard. *)
Lemma while_loop_converged fuel : forall ind v err n,
  loop fuel ind = Converged v err n -> (pthr <= Z.of_nat n)%Z.
Proof.
  induction fuel as [| fuel IH]; intros ind v err n; unfold loop; simpl.
  - destruct (Z.of_nat (length ind) <? pthr)%Z; discriminate.
  - destruct (Z.of_nat (length ind) <? pthr)%Z eqn:E; [discriminate |].
    apply Z.ltb_ge in E.
    destruct (body obs_ij span vcm nsig ind)
      as [[maxi | v0 err0 n0] | e] eqn:Eb;
      try discriminate.
    + destruct (np_delete ind maxi) as [ind' | e]; [| discriminate].
      apply IH.
    + intros [= <- <- <-]. apply body_save_length in Eb. lia.
Qed.

(** Passes beyond the one in which the loop stops are never used. *)
Lemma while_loop_stable fuel : forall ind fuel',
  finished (loop fuel ind) = true -> (fuel <= fuel')%nat ->
  loop fuel' ind = loop fuel ind.
Proof.
  induction fuel as [| fuel IH]; intros ind fuel'; unfold loop.
  - destruct fuel'; simpl;
      destruct (Z.of_nat (length ind) <? pthr)%Z; try reflexivity;
      discriminate.
  - intros Hf Hle. destruct fuel' as [| fuel']; [lia |]. simpl in *.
    destruct (Z.of_nat (length ind) <? pthr)%Z; [reflexivity |].
    destruct (body obs_ij span vcm nsig ind) as [[maxi | v err n] | e];
      try reflexivity.
    destruct (np_delete ind maxi) as [ind' | e]; [| reflexivity].
    apply IH; [assumption | lia].
Qed.

End LoopFacts.

(** ** Grids *)

Lemma nth_upd {A : Type} (f : A -> A) (d : A) n l k :
  nth k (upd n f l) d = nth k l d \/
  (k = n /\ (n < length l)%nat /\ nth k (upd n f l) d = f (nth k l d)).
Proof.
  revert n k; induction l as [| x l IH]; intros n k; [now left |].
  destruct n as [| n]; destruct k as [| k]; simpl; auto.
  - right. repeat split. lia.
  - destruct (IH n k) as [H | (-> & Hn & H)]; [now left |].
    right. repeat split; [lia | assumption].
Qed.

Lemma get2_set2 g i j x i' j' :
  get2 (set2 g i j x) i' j' = x \/
  get2 (set2 g i j x) i' j' = get2 g i' j'.
Proof.
  unfold get2, set2.
  destruct (nth_upd (upd j (fun _ => x)) [] i g i') as [-> | (-> & _ & ->)];
    [now right |].
  destruct (nth_upd (fun _ => x) NaN j (nth i g []) j')
    as [-> | (-> & _ & ->)]; auto.
Qed.

Lemma get2_nans rows cols i j : get2 (repeat (repeat NaN cols) rows) i j = NaN.
Proof.
  unfold get2.
  destruct (Nat.lt_ge_cases i rows) as [Hi | Hi].
  - rewrite (nth_repeat_lt _ [] Hi). apply nth_repeat.
  - rewrite (nth_overflow (repeat (repeat NaN cols) rows) [])
      by (rewrite repeat_length; lia).
    now destruct j.
Qed.

Lemma nth_map2 {A B C : Type} (f : A -> B -> C) da db dc l m k :
  (k < length l)%nat -> (k < length m)%nat ->
  nth k (map2 f l m) dc = f (nth k l da) (nth k m db).
Proof.
  revert m k; induction l as [| x l IH]; intros [| y m] [| k]; simpl;
    intros H1 H2; try lia; auto.
  apply IH; lia.
Qed.

Lemma length_map2 {A B C : Type} (f : A -> B -> C) l m :
  length (map2 f l m) = Nat.min (length l) (length m).
Proof.
  revert m; induction l as [| x l IH]; intros [| y m]; simpl; auto.
Qed.

(** A cell after [a[error > maxsig] = nan] is [nan] or what it was. *)
Lemma get2_reset_above a e m i j :
  get2 (reset_above a e m) i j = NaN \/
  (get2 (reset_above a e m) i j = get2 a i j /\
   val_gt (get2 e i j) m = false).
Proof.
  unfold get2, reset_above.
  set (f := map2 (fun x e0 => if val_gt e0 m then NaN else x)).
  destruct (Nat.lt_ge_cases i (length (map2 f a e))) as [Hi | Hi].
  - rewrite length_map2 in Hi.
    rewrite (nth_map2 f [] [] []) by lia.
    set (ra := nth i a []). set (re := nth i e []). unfold f.
    destruct (Nat.lt_ge_cases j
      (length (map2 (fun x e0 => if val_gt e0 m then NaN else x) ra re)))
      as [Hj | Hj].
    + rewrite length_map2 in Hj.
      rewrite (nth_map2 _ NaN NaN NaN) by lia.
      destruct (val_gt (nth j re NaN) m); auto.
    + left. now apply nth_overflow.
  - left. rewrite (nth_overflow _ _ Hi). now destruct j.
Qed.

(** ** Loops over pixels *)

Lemma for_each_invariant {S : Type} (P : S -> Prop) l f :
  (forall x s s', P s -> f x s = Ok s' -> P s') ->
  forall s s', P s -> for_each l f s = Ok s' -> P s'.
Proof.
  intros Hf. induction l as [| x l IH]; intros s s' Hs; simpl.
  - now intros [= <-].
  - destruct (f x s) as [s1 |] eqn:E; [| discriminate]. simpl.
    apply IH. eapply Hf; eauto.
Qed.

Lemma for_each_raises {S : Type} l (f : nat -> S -> exc S) x :
  In x l -> (forall s, exists e, f x s = Raise e) ->
  forall s, exists e, for_each l f s = Raise e.
Proof.
  intros Hin Hx. induction l as [| y l IH]; [contradiction |].
  intros s. simpl. destruct (f y s) as [s1 |] eqn:E.
  - simpl. destruct Hin as [-> | Hin]; [| now apply IH].
    destruct (Hx s) as [e He]. congruence.
  - now exists e.
Qed.

(** ** The kernel computes what its names say *)

Lemma dot_eliminated f u w xs :
  length u = length w ->
  dot (map2 (fun x y => x - f * y) u w) xs = dot u xs - f * dot w xs.
Proof.
  revert w xs; induction u as [| a u IH]; intros [| b w] xs; simpl;
    try discriminate; intros H.
  - unfold dot; simpl. lra.
  - destruct xs as [| x xs]; [unfold dot; simpl; lra |].
    injection H as H. rewrite !dot_cons, (IH w xs H). lra.
Qed.

Lemma pick_pivot_spec rows p others :
  pick_pivot rows = Some (p, others) ->
  hd 0 (fst p) <> 0 /\
  length rows = S (length others) /\
  (forall r, In r rows <-> r = p \/ In r others).
Proof.
  revert p others; induction rows as [| row rows IH]; intros p others;
    simpl; [discriminate |].
  destruct (Reqb (hd 0 (fst row)) 0) eqn:E.
  - destruct (pick_pivot rows) as [[p1 o1] |]; [| discriminate].
    intros [= <- <-]. destruct (IH p1 o1 eq_refl) as (Hp & Hl & Hin).
    split; [assumption |]. split; [simpl; now rewrite Hl |].
    intros r. simpl. rewrite Hin. tauto.
  - intros [= <- <-]. split; [| split; [reflexivity |]].
    + intros H. apply Reqb_true in H. congruence.
    + intros r. simpl. split; intros [H | H]; auto.
Qed.

(** A solution returned by [gauss] satisfies every equation of the
    system. *)
Lemma gauss_sound n : forall rows xs,
  length rows = n ->
  (forall r, In r rows -> length (fst r) = n) ->
  gauss n rows = Ok xs ->
  length xs = n /\ forall r, In r rows -> dot (fst r) xs = snd r.
Proof.
  induction n as [| n IH]; intros rows xs Hlen Hrow; simpl.
  - intros [= <-]. destruct rows; [| discriminate].
    split; [reflexivity | intros r []].
  - destruct (pick_pivot rows) as [[p others] |] eqn:Ep; [| discriminate].
    destruct (pick_pivot_spec _ _ _ Ep) as (Hp & Hl & Hin).
    destruct (gauss n (map (eliminate p) others)) as [ys |] eqn:Eg;
      [| discriminate].
    cbn [bind]. intros [= <-].
    assert (Hplen : length (fst p) = S n) by (apply Hrow, Hin; now left).
    destruct p as [[| ph pt] pb]; [discriminate |].
    cbn [fst snd hd tl length] in *. apply eq_add_S in Hplen.
    destruct (IH (map (eliminate (ph :: pt, pb)) others) ys)
      as [Hys Hsol]; auto.
    { rewrite length_map. apply eq_add_S.
      exact (eq_trans (eq_sym Hl) Hlen). }
    { intros r Hr. apply in_map_iff in Hr.
      destruct Hr as ([[| rh rt] rb] & <- & Hr0);
        assert (Hr1 := Hrow _ (proj2 (Hin _) (or_intror Hr0)));
        [discriminate |].
      unfold eliminate. cbn [fst snd hd tl length] in *.
      apply eq_add_S in Hr1. rewrite length_map2, Hr1, Hplen.
      apply Nat.min_id. }
    split; [simpl; now rewrite Hys |].
    intros [[| rh rt] rb] Hr; apply Hin in Hr; destruct Hr as [Hr | Hr];
      try discriminate.
    + assert (Hr1 := Hrow _ (proj2 (Hin _) (or_intror Hr))). discriminate.
    + injection Hr as -> -> ->. cbn [fst snd]. rewrite dot_cons. field.
      assumption.
    + assert (Hr1 := Hrow _ (proj2 (Hin _) (or_intror Hr))).
      cbn [fst length] in Hr1. apply eq_add_S in Hr1.
      specialize (Hsol _ (in_map (eliminate (ph :: pt, pb)) _ _ Hr)).
      unfold eliminate in Hsol. cbn [fst snd hd tl] in Hsol.
      rewrite dot_eliminated in Hsol
        by exact (eq_trans Hr1 (eq_sym Hplen)).
      cbn [fst snd]. rewrite dot_cons.
      replace (rh * ((pb - dot pt ys) / ph))
        with (rh / ph * (pb - dot pt ys)) by (field; assumption).
      lra.
Qed.

(** [solve(a, b)] returns a solution of [a x = b]. *)
Lemma solve_sound a b x :
  length b = length a ->
  (forall row, In row a -> length row = length a) ->
  solve a b = Ok x ->
  mat_vec a x = b.
Proof.
  intros Hb Ha H. unfold solve in H.
  apply gauss_sound in H.
  - destruct H as [_ H]. unfold mat_vec.
    clear Ha. revert b Hb H. induction a as [| row a IH];
      intros [| y b] Hb H; simpl in *; try discriminate; [reflexivity |].
    f_equal.
    + apply (H (row, y)). now left.
    + apply IH; [congruence |]. intros r Hr. apply H. now right.
  - rewrite length_combine. lia.
  - intros r Hr. destruct r as [row y]. apply in_combine_l in Hr.
    now apply Ha.
Qed.

Lemma In_map2 {A B C : Type} (f : A -> B -> C) l m x :
  In x (map2 f l m) -> exists a b, x = f a b /\ In a l /\ In b m.
Proof.
  revert m; induction l as [| a l IH]; intros [| b m]; simpl; try tauto.
  intros [<- | H]; [exists a, b; auto |].
  destruct (IH m H) as (a' & b' & -> & Ha & Hb). exists a', b'. auto.
Qed.

Lemma dot_repeat_0 x n : dot x (repeat 0 n) = 0.
Proof.
  revert n; induction x as [| a x IH]; intros [| n]; try reflexivity.
  simpl repeat. rewrite dot_cons, IH. lra.
Qed.

Lemma dot_comm u w : dot u w = dot w u.
Proof.
  revert w; induction u as [| a u IH]; intros [| b w]; try reflexivity.
  rewrite !dot_cons, IH. lra.
Qed.

(** The factor returned by [cholesky(a, lower=True)] is square and its
    product with its transpose agrees with [a] on the lower triangle. *)
Lemma chol_sound n : forall a L,
  square n a -> chol n a = Ok L ->
  square n L /\
  forall i j, (j <= i < n)%nat ->
    dot (nth i L []) (nth j L []) = nth j (nth i a []) 0.
Proof.
  induction n as [| n IH]; intros a L [Hlen Hrows]; simpl.
  - intros [= <-]. split; [split; [reflexivity | intros row []] |].
    intros i j Hij. lia.
  - destruct a as [| r0 rest]; [discriminate |]. injection Hlen as Hlen.
    assert (Hr0 : length r0 = S n) by (apply Hrows; now left).
    destruct r0 as [| a11 r0t]; [discriminate |]. cbn [hd tl].
    destruct (Rleb a11 0) eqn:Ea; [discriminate |].
    assert (Ha : 0 < a11).
    { unfold Rleb in Ea. destruct (Rle_dec a11 0); [discriminate | lra]. }
    set (l11 := sqrt a11).
    assert (Hl11 : l11 * l11 = a11) by (apply sqrt_sqrt; lra).
    assert (Hl0 : l11 <> 0) by (intros E; rewrite E in Hl11; lra).
    set (l21 := map (fun row => hd 0 row / l11) rest).
    set (schur := map2 _ l21 rest).
    assert (Hl21 : length l21 = n) by (unfold l21; now rewrite length_map).
    assert (Hrest : forall row, In row rest -> length (tl row) = n).
    { intros row Hr. assert (H := Hrows row (or_intror Hr)).
      destruct row; [discriminate | simpl in *; lia]. }
    assert (Hschur : square n schur).
    { split.
      - unfold schur. rewrite length_map2. lia.
      - intros row Hr. apply In_map2 in Hr.
        destruct Hr as (li & r & -> & _ & Hr).
        rewrite length_map2, Hl21, (Hrest r Hr). apply Nat.min_id. }
    destruct (chol n schur) as [L' |] eqn:Ec; [| discriminate].
    cbn [bind]. intros [= <-].
    destruct (IH schur L' Hschur Ec) as [[HL'len HL'rows] Hprod].
    split.
    + split.
      * simpl. rewrite length_map2. lia.
      * intros row [<- | Hr]; [simpl; now rewrite repeat_length |].
        apply In_map2 in Hr. destruct Hr as (li & r & -> & _ & Hr).
        simpl. now rewrite (HL'rows r Hr).
    + assert (Hrow : forall k, (k < n)%nat ->
                nth (S k) ((l11 :: repeat 0 n) :: map2 cons l21 L') []
                = nth k l21 0 :: nth k L' []).
      { intros k Hk. cbn [nth].
        apply (nth_map2 cons 0 [] []); lia. }
      assert (Hl21k : forall k, (k < n)%nat ->
                nth k l21 0 = hd 0 (nth k rest []) / l11).
      { intros k Hk. unfold l21.
        rewrite (nth_indep _ 0 ((fun row => hd 0 row / l11) []))
          by (rewrite length_map; lia).
        apply (map_nth (fun row => hd 0 row / l11)). }
      intros [| i] [| j] Hij; try lia.
      * cbn [nth]. rewrite dot_cons, dot_repeat_0. lra.
      * rewrite (Hrow i) by lia. cbn [nth].
        rewrite dot_cons, dot_repeat_0, (Hl21k i) by lia.
        destruct (nth i rest []) as [| h t]; simpl; field; assumption.
      * rewrite (Hrow i), (Hrow j) by lia.
        rewrite dot_cons, (Hprod i j) by lia. cbn [nth].
        unfold schur.
        rewrite (nth_map2 _ 0 [] []) by lia.
        assert (Hin : In (nth i rest []) rest) by (apply nth_In; lia).
        rewrite (nth_map2 _ 0 0 0)
          by (rewrite ?Hl21, ?(Hrest _ Hin); lia).
        destruct (nth i rest []) as [| h t]; simpl;
          [destruct j; lra | lra].
Qed.

(** ** The example runs *)

Lemma cholesky_upper_I2 : cholesky_upper I2 = Ok I2.
Proof.
  unfold cholesky_upper.
  change (transpose I2) with I2. rewrite cholesky_lower_I2. reflexivity.
Qed.

Lemma solver_pair : solver [Num 6; Num 8] [3; 4] I2 = Ok (2, Num (1/5)).
Proof.
  rewrite solver_identity_2 by lra. do 2 f_equal; [lra |].
  f_equal. apply sqrt_of_square; lra.
Qed.

Lemma worst_residual_pair :
  worst_residual [Num 6; Num 8] [3; 4] I2 2 = Ok (0, 0%nat).
Proof.
  unfold worst_residual. rewrite inv_I2. cbn [bind].
  rewrite cholesky_upper_I2. unfold I2.
  cbn [bind values map map2 scaled_rows diag length seq nth np_max
       fold_left].
  rewrite (Rabs_is (1 * (3 * 2 - 6)) 0) by (first [lra | left; lra]).
  rewrite (Rabs_is (1 * (4 * 2 - 8)) 0) by (first [lra | left; lra]).
  rewrite Rmax_left by lra. cbn [bind first_row_from map existsb].
  rewrite (Reqb_true 0 0) by reflexivity. reflexivity.
Qed.

Lemma body_pair obs_ij span vcm ind :
  take obs_ij ind = Ok [Num 6; Num 8] ->
  take span ind = Ok [3; 4] ->
  submatrix vcm ind = Ok I2 ->
  body obs_ij span vcm 3 ind = Ok (Save 2 (Num (1/5)) 2).
Proof.
  intros Ei EB EV. unfold body. rewrite Ei, EB, EV. cbn [bind].
  rewrite solver_pair. cbn [bind]. rewrite worst_residual_pair. cbn [bind].
  rewrite Rltb_false by lra. reflexivity.
Qed.

Lemma pair_pixels :
  all_pixels (obs_of pair_store) (span_of pair_store) I2 (ones 2 1 1) 2 3
             1 1 {| rate := [[NaN]]; error := [[NaN]]; samples := [[NaN]] |}
  = Ok {| rate := [[Num 2]]; error := [[Num (1/5)]];
          samples := [[Num 2]] |}.
Proof.
  unfold all_pixels. cbn [seq for_each]. unfold run_pixel, pixel_outcome.
  change (candidates (ones 2 1 1) 0 0) with [0; 1]%nat.
  cbn [length while_loop]. change (Z.of_nat 2 <? 2)%Z with false.
  cbv iota. rewrite body_pair by reflexivity.
  cbn [bind set2 upd rate error samples]. reflexivity.
Qed.

Lemma linear_rate_unfold s pthr nsig maxsig rows cols mst :
  grid_shape (s_ifgs s) = Ok (rows, cols) ->
  snd (update_mst s rows cols) = Ok mst ->
  linear_rate s pthr nsig maxsig
  = (fst (update_mst s rows cols),
     g <- all_pixels (obs_of s) (span_of s) (s_vcm s) mst pthr nsig
                     rows cols
                     {| rate := repeat (repeat NaN cols) rows;
                        error := repeat (repeat NaN cols) rows;
                        samples := repeat (repeat NaN cols) rows |} ;;
     Ok (post_pass g maxsig)).
Proof.
  intros E Em. unfold linear_rate. rewrite E.
  destruct (update_mst s rows cols) as [s' updated]. cbn [fst snd] in *.
  now subst updated.
Qed.

(** A mask of another shape than the observations: line 35 raises and
    nothing is changed. *)
Lemma linear_rate_mismatch s pthr nsig maxsig rows cols e :
  grid_shape (s_ifgs s) = Ok (rows, cols) ->
  snd (update_mst s rows cols) = Raise e ->
  linear_rate s pthr nsig maxsig = (fst (update_mst s rows cols), Raise e).
Proof.
  intros E Em. unfold linear_rate. rewrite E.
  destruct (update_mst s rows cols) as [s' updated]. cbn [fst snd] in *.
  now subst updated.
Qed.

Lemma pair_run :
  linear_rate pair_store 2 3 (1/10)
  = (pair_store,
     Ok {| rate := [[NaN]]; error := [[NaN]]; samples := [[Num 2]] |}).
Proof.
  rewrite (linear_rate_unfold pair_store 2 3 (1/10) 1 1 (ones 2 1 1))
    by reflexivity.
  change (update_mst pair_store 1 1) with (pair_store, Ok (ones 2 1 1)).
  cbn [fst snd repeat]. change (s_vcm pair_store) with I2.
  rewrite pair_pixels.
  cbn [bind]. unfold post_pass, reset_above.
  cbn [rate error samples map2 val_gt].
  rewrite Rltb_true by lra. reflexivity.
Qed.

Lemma unmasked_run :
  linear_rate unmasked_store 2 3 1 = (unmasked_store, Raise NotFinite).
Proof.
  rewrite (linear_rate_unfold unmasked_store 2 3 1 1 1 (ones 2 1 1))
    by reflexivity.
  change (update_mst unmasked_store 1 1)
    with (unmasked_store, Ok (ones 2 1 1)).
  cbn [fst snd repeat]. unfold all_pixels. cbn [seq for_each].
  unfold run_pixel, pixel_outcome.
  change (candidates (ones 2 1 1) 0 0) with [0; 1]%nat.
  cbn [length while_loop]. change (Z.of_nat 2 <? 2)%Z with false.
  cbv iota. unfold body.
  change (take (pixel NaN (obs_of unmasked_store) 0 0) [0; 1]%nat)
    with (Ok [Num 6; NaN]).
  change (take (span_of unmasked_store) [0; 1]%nat) with (Ok [3; 4]).
  change (submatrix (s_vcm unmasked_store) [0; 1]%nat) with (Ok I2).
  cbn [bind]. unfold solver. rewrite cholesky_lower_I2. cbn [bind].
  rewrite solve_I2. reflexivity.
Qed.

Lemma split_first_pixel :
  pixel_outcome (obs_of split_store) (span_of split_store) split_vcm
                split_mst 2 3 0 0
  = Failed NotPositiveDefinite.
Proof.
  unfold pixel_outcome.
  change (candidates split_mst 0 0) with [0; 1]%nat.
  cbn [length while_loop]. change (Z.of_nat 2 <? 2)%Z with false.
  cbv iota. unfold body.
  change (take (pixel NaN (obs_of split_store) 0 0) [0; 1]%nat)
    with (Ok [Num 5; Num 6]).
  change (take (span_of split_store) [0; 1]%nat) with (Ok [1; 3]).
  change (submatrix split_vcm [0; 1]%nat) with (Ok [[-1; 0]; [0; 1]]).
  cbn [bind]. unfold solver. rewrite cholesky_lower_fails by lra.
  reflexivity.
Qed.

Lemma split_second_pixel :
  pixel_outcome (obs_of split_store) (span_of split_store) split_vcm
                split_mst 2 3 0 1
  = Converged 2 (Num (1/5)) 2.
Proof.
  unfold pixel_outcome.
  change (candidates split_mst 0 1) with [1; 2]%nat.
  cbn [length while_loop]. change (Z.of_nat 2 <? 2)%Z with false.
  cbv iota. now rewrite body_pair.
Qed.

Lemma split_run :
  linear_rate split_store 2 3 1
  = (split_store, Raise NotPositiveDefinite).
Proof.
  rewrite (linear_rate_unfold split_store 2 3 1 1 2 split_mst)
    by reflexivity.
  change (update_mst split_store 1 2) with (split_store, Ok split_mst).
  cbn [fst snd repeat]. unfold all_pixels. cbn [seq for_each].
  unfold run_pixel at 1. change (s_vcm split_store) with split_vcm.
  rewrite split_first_pixel. reflexivity.
Qed.

Lemma body_V1_strict :
  body ifgv1 B1 V1 3 [0; 1]%nat = Ok (Discard 0).
Proof.
  unfold body.
  change (take ifgv1 [0; 1]%nat) with (Ok ifgv1).
  change (take B1 [0; 1]%nat) with (Ok B1).
  change (submatrix V1 [0; 1]%nat) with (Ok V1). cbn [bind].
  rewrite solver_V1. cbn [bind]. rewrite worst_residual_V1. cbn [bind].
  rewrite Rltb_true by lra. reflexivity.
Qed.

(** ** Properties of the solver *)

(** C6, as stated, fails: with time spans 1 and 2 and both observations
    equal to 1 the two-point slope is 0, while the solver, which fits a line
    through the origin, returns 3/5. *)
Lemma C6_counterexample :
  exists err,
    solver [Num 1; Num 1] [1; 2] I2 = Ok (3/5, err) /\
    3/5 <> (1 - 1) / (2 - 1).
Proof.
  exists (Num (sqrt (1 / (1 * 1 + 2 * 2)))). split; [| lra].
  rewrite solver_identity_2 by lra. do 2 f_equal. lra.
Qed.

(** C6, amended: for two observations with identity covariance and time
    spans not both zero, the solver's rate is the least-squares slope of the
    line through the origin, [(t1 y1 + t2 y2) / (t1^2 + t2^2)]; it equals
    the two-point slope [(y2 - y1) / (t2 - t1)] exactly when
    [(t1 + t2) (t2 y1 - t1 y2) = 0]. *)
Theorem C6_through_origin_slope t1 t2 y1 y2 :
  t1 * t1 + t2 * t2 <> 0 ->
  exists v err,
    solver [Num y1; Num y2] [t1; t2] I2 = Ok (v, err) /\
    v = (t1 * y1 + t2 * y2) / (t1 * t1 + t2 * t2) /\
    (t1 <> t2 ->
     (v = (y2 - y1) / (t2 - t1) <-> (t1 + t2) * (t2 * y1 - t1 * y2) = 0)).
Proof.
  intros Ht. eexists _, _. split; [now apply solver_identity_2 |].
  split; [reflexivity |]. intros Hne.
  assert (Hd : t2 - t1 <> 0) by lra.
  split; intros H.
  - apply (f_equal (fun x => x * (t1 * t1 + t2 * t2) * (t2 - t1))) in H.
    field_simplify in H; try assumption. nra.
  - apply (Rmult_eq_reg_r ((t1 * t1 + t2 * t2) * (t2 - t1))).
    + field_simplify; try assumption; try (split; assumption). nra.
    + now apply Rmult_integral_contrapositive.
Qed.

Lemma C6_through_origin_slope_witness :
  3 * 3 + 4 * 4 <> 0 /\
  exists v err,
    solver [Num 6; Num 8] [3; 4] I2 = Ok (v, err) /\
    v = (3 * 6 + 4 * 8) / (3 * 3 + 4 * 4) /\
    (3 <> 4 ->
     (v = (8 - 6) / (4 - 3) <-> (3 + 4) * (4 * 6 - 3 * 8) = 0)).
Proof.
  split; [lra |]. apply (C6_through_origin_slope 3 4 6 8). lra.
Defined.

(** C10: the standard error returned by the solver is determined by the
    time spans and the covariance alone: two fits of different observation
    vectors against the same [B] and [V] report the same [err]. *)
Theorem C10_error_independent_of_observations B V ifgv ifgv' v err v' err' :
  solver ifgv B V = Ok (v, err) ->
  solver ifgv' B V = Ok (v', err') ->
  err = err'.
Proof.
  unfold solver.
  destruct (cholesky_lower V) as [T |]; [| discriminate]. cbn [bind].
  destruct (solve T B) as [A |]; [| discriminate]. cbn [bind].
  destruct (y <- finite ifgv;; solve T y) as [b |]; [| discriminate].
  destruct (y <- finite ifgv';; solve T y) as [b' |]; [| discriminate].
  cbn [bind]. destruct (qr A) as [Q Rq].
  destruct (solve [[Rq]] [dot Q b]) as [x |]; [| discriminate].
  destruct (solve [[Rq]] [dot Q b']) as [x' |]; [| discriminate].
  cbn [bind]. destruct (inv V) as [iV |]; [| discriminate]. cbn [bind].
  destruct (inv [[dot B (mat_vec iV B)]]) as [ie |]; [| discriminate].
  cbn [bind]. congruence.
Qed.

Lemma C10_error_independent_of_observations_witness :
  solver [Num 6; Num 8] [3; 4] I2 = Ok (2, Num (1/5)) /\
  solver [Num 1; Num 1] [3; 4] I2
  = Ok (7/25, Num (sqrt (1 / (3 * 3 + 4 * 4)))) /\
  Num (1/5) = Num (sqrt (1 / (3 * 3 + 4 * 4))).
Proof.
  assert (H1 : solver [Num 6; Num 8] [3; 4] I2 = Ok (2, Num (1/5)))
    by apply solver_pair.
  assert (H2 : solver [Num 1; Num 1] [3; 4] I2
               = Ok (7/25, Num (sqrt (1 / (3 * 3 + 4 * 4))))).
  { rewrite solver_identity_2 by lra. do 2 f_equal. lra. }
  repeat split; try assumption.
  exact (C10_error_independent_of_observations _ _ _ _ _ _ _ _ H1 H2).
Defined.

(** ** Properties of the rejection loop *)

Lemma first_row_from_bound c : forall n k,
  first_row_from n c = Ok k -> (n <= k < n + length c)%nat.
Proof.
  induction c as [| row c IH]; intros n k; simpl; [discriminate |].
  destruct (existsb (fun x => x) row).
  - intros [= <-]. lia.
  - intros H. apply IH in H. lia.
Qed.

Lemma worst_residual_index ifgv B V v maxr maxi :
  worst_residual ifgv B V v = Ok (maxr, maxi) ->
  (maxi < Nat.min (length B) (length ifgv))%nat.
Proof.
  unfold worst_residual.
  destruct (iV <- inv V;; cholesky_upper iV) as [w |]; [| discriminate].
  cbn [bind].
  destruct (np_max _) as [m |]; [| discriminate]. cbn [bind].
  destruct (first_row_from _ _) as [k |] eqn:E; [| discriminate].
  cbn [bind]. intros [= _ <-].
  apply first_row_from_bound in E.
  rewrite length_map in E. unfold scaled_rows in E.
  rewrite !length_map2 in E. unfold values in E. rewrite length_map in E.
  lia.
Qed.

Lemma body_discard_index obs_ij span vcm nsig ind maxi :
  body obs_ij span vcm nsig ind = Ok (Discard maxi) ->
  (maxi < length ind)%nat.
Proof.
  unfold body.
  destruct (take obs_ij ind) as [ifgv |] eqn:Ei; [| discriminate].
  cbn [bind].
  destruct (take span ind) as [B |] eqn:EB; [| discriminate]. cbn [bind].
  destruct (submatrix vcm ind) as [V |]; [| discriminate]. cbn [bind].
  destruct (solver ifgv B V) as [[v err] |]; [| discriminate]. cbn [bind].
  destruct (worst_residual ifgv B V v) as [[maxr k] |] eqn:Ew;
    [| discriminate].
  cbn [bind]. destruct (Rltb nsig maxr); [| discriminate].
  intros [= <-]. apply worst_residual_index in Ew.
  apply take_length in Ei. apply take_length in EB. lia.
Qed.

(** C8: every rejection removes exactly one candidate, so the candidate set
    strictly shrinks, and the loop of a pixel has stopped (converged, fallen
    below [pthr] or raised) after at most [len(ind) - pthr + 1] passes
    through its body: further passes are never used. *)
Theorem C8_rejection_loop_terminates obs_ij span vcm pthr nsig ind :
  let bound := Z.to_nat (Z.of_nat (length ind) - pthr + 1) in
  (forall maxi,
     body obs_ij span vcm nsig ind = Ok (Discard maxi) ->
     exists ind',
       np_delete ind maxi = Ok ind' /\ (length ind' < length ind)%nat /\
       S (length ind') = length ind) /\
  finished (while_loop obs_ij span vcm pthr nsig bound ind) = true /\
  (forall fuel, (bound <= fuel)%nat ->
     while_loop obs_ij span vcm pthr nsig fuel ind
     = while_loop obs_ij span vcm pthr nsig bound ind).
Proof.
  cbv zeta. split; [| split].
  - intros maxi Hb. apply body_discard_index in Hb.
    destruct (np_delete ind maxi) as [ind' | e] eqn:Ed.
    + exists ind'. apply np_delete_length in Ed. repeat split; lia.
    + unfold np_delete in Ed. apply Nat.ltb_lt in Hb. rewrite Hb in Ed.
      discriminate.
  - apply while_loop_bounded. lia.
  - intros fuel Hf. apply while_loop_stable; [| assumption].
    apply while_loop_bounded. lia.
Qed.

Lemma C8_rejection_loop_terminates_witness :
  (exists ind' : list nat,
     np_delete [0; 1]%nat 0 = Ok ind' /\
     (length ind' < length [0; 1]%nat)%nat /\
     S (length ind') = length [0; 1]%nat) /\
  finished (while_loop ifgv1 B1 V1 2 3 1 [0; 1]%nat) = true /\
  while_loop ifgv1 B1 V1 2 3 3 [0; 1]%nat
  = while_loop ifgv1 B1 V1 2 3 1 [0; 1]%nat.
Proof.
  destruct (C8_rejection_loop_terminates ifgv1 B1 V1 2 3 [0; 1]%nat)
    as (Hstep & Hstop & Hrest).
  split; [exact (Hstep 0%nat body_V1_strict) |].
  split; [exact Hstop | apply Hrest; simpl; lia].
Defined.

(** The loop of every pixel stops within the passes [pixel_outcome] gives
    it. *)
Lemma pixel_outcome_finished obs span vcm mst pthr nsig i j :
  finished (pixel_outcome obs span vcm mst pthr nsig i j) = true.
Proof. unfold pixel_outcome. apply while_loop_finishes. lia. Qed.

(** ** Properties of the returned grids *)

Lemma run_pixel_counts obs span vcm mst pthr nsig i j g g' :
  counts_ok pthr g ->
  run_pixel obs span vcm mst pthr nsig i j g = Ok g' ->
  counts_ok pthr g'.
Proof.
  intros Hg. unfold run_pixel.
  destruct (pixel_outcome obs span vcm mst pthr nsig i j)
    as [v err n | | e |] eqn:E; try (intros [= <-]; assumption);
    try discriminate.
  intros [= <-]. intros i' j' x. cbn [samples].
  destruct (get2_set2 (samples g) i j (Num (INR n)) i' j') as [-> | ->];
    [| apply Hg].
  intros [= <-]. apply while_loop_converged in E.
  rewrite INR_IZR_INZ. now apply IZR_le.
Qed.

Lemma post_pass_counts pthr g maxsig :
  counts_ok pthr g -> counts_ok pthr (post_pass g maxsig).
Proof.
  intros Hg i j x. unfold post_pass. cbn [samples].
  destruct (get2_reset_above (samples g)
              (reset_above (error g) (error g) maxsig) maxsig i j)
    as [-> | [-> _]]; [discriminate | apply Hg].
Qed.

(** C9: a sample count that is a number is at least [pthr]. *)
Theorem C9_sample_count_at_least_pthr s pthr nsig maxsig g i j x :
  snd (linear_rate s pthr nsig maxsig) = Ok g ->
  get2 (samples g) i j = Num x ->
  IZR pthr <= x.
Proof.
  unfold linear_rate.
  destruct (grid_shape (s_ifgs s)) as [[rows cols] |]; [| discriminate].
  destruct (update_mst s rows cols) as [s' [mst |]]; cbn [snd bind];
    [| discriminate].
  destruct (all_pixels _ _ _ _ _ _ _ _ _) as [g1 |] eqn:E; [| discriminate].
  cbn [bind]. intros [= <-]. revert i j x.
  apply post_pass_counts. unfold all_pixels in E.
  revert E. apply for_each_invariant.
  - intros i1 s1 s2 Hs. apply for_each_invariant; [| assumption].
    intros j1 g2 g3. apply run_pixel_counts.
  - intros i1 j1 x1. cbn [samples]. now rewrite get2_nans.
Qed.

Lemma C9_sample_count_at_least_pthr_witness :
  snd (linear_rate pair_store 2 3 (1/10))
  = Ok {| rate := [[NaN]]; error := [[NaN]]; samples := [[Num 2]] |} /\
  get2 [[Num 2]] 0 0 = Num 2 /\
  IZR 2 <= 2.
Proof.
  assert (Hrun : snd (linear_rate pair_store 2 3 (1/10))
                 = Ok {| rate := [[NaN]]; error := [[NaN]];
                         samples := [[Num 2]] |})
    by (now rewrite pair_run).
  split; [exact Hrun |]. split; [reflexivity |].
  exact (C9_sample_count_at_least_pthr pair_store 2 3 (1/10) _ 0 0 2
           Hrun eq_refl).
Defined.

(** ** Exceptions *)

(** C5, as stated, fails: the first pixel of [split_store] meets a matrix
    that is not positive definite, and the call as a whole raises, although
    the loop of the second pixel, taken alone, converges. *)
Lemma C5_counterexample :
  pixel_outcome (obs_of split_store) (span_of split_store) split_vcm
                split_mst 2 3 0 0 = Failed NotPositiveDefinite /\
  pixel_outcome (obs_of split_store) (span_of split_store) split_vcm
                split_mst 2 3 0 1 = Converged 2 (Num (1/5)) 2 /\
  snd (linear_rate split_store 2 3 1) = Raise NotPositiveDefinite.
Proof.
  split; [apply split_first_pixel |]. split; [apply split_second_pixel |].
  now rewrite split_run.
Qed.

(** C5, amended: an exception raised in the loop of any pixel of the grid,
    a Cholesky failure included, is not caught: [linear_rate] itself raises
    and returns no grids, so the remaining pixels are not processed and no
    number is reported for any pixel. *)
Theorem C5_pixel_failure_aborts_call s pthr nsig maxsig rows cols mst i j e :
  grid_shape (s_ifgs s) = Ok (rows, cols) ->
  snd (update_mst s rows cols) = Ok mst ->
  (i < rows)%nat -> (j < cols)%nat ->
  pixel_outcome (obs_of s) (span_of s) (s_vcm s) mst pthr nsig i j
  = Failed e ->
  exists e', snd (linear_rate s pthr nsig maxsig) = Raise e'.
Proof.
  intros Hs Hm Hi Hj Hp.
  rewrite (linear_rate_unfold s pthr nsig maxsig rows cols mst Hs Hm).
  cbn [snd]. unfold all_pixels.
  match goal with |- context [for_each ?l ?f ?g] =>
    destruct (for_each_raises l f i) with (s := g) as [e' He'] end.
  - apply in_seq. lia.
  - apply for_each_raises with (x := j); [apply in_seq; lia |].
    intros g. unfold run_pixel. rewrite Hp. now exists e.
  - rewrite He'. now exists e'.
Qed.

Lemma C5_pixel_failure_aborts_call_witness :
  grid_shape (s_ifgs split_store) = Ok (1, 2)%nat /\
  snd (update_mst split_store 1 2) = Ok split_mst /\
  pixel_outcome (obs_of split_store) (span_of split_store)
                (s_vcm split_store) split_mst 2 3 0 0
  = Failed NotPositiveDefinite /\
  exists e', snd (linear_rate split_store 2 3 1) = Raise e'.
Proof.
  split; [reflexivity |]. split; [reflexivity |].
  split; [apply split_first_pixel |].
  apply (C5_pixel_failure_aborts_call split_store 2 3 1 1 2 split_mst 0 0
           NotPositiveDefinite).
  - reflexivity.
  - reflexivity.
  - lia.
  - lia.
  - apply split_first_pixel.
Defined.

(** ** The caller's arrays *)

Lemma nth_error_map2 {A B C : Type} (f : A -> B -> C) l m k :
  nth_error (map2 f l m) k
  = match nth_error l k, nth_error m k with
    | Some a, Some b => Some (f a b)
    | _, _ => None
    end.
Proof.
  revert m k; induction l as [| x l IH]; intros [| y m] [| k]; simpl; auto.
  - now destruct (nth_error l k).
Qed.

Lemma cell_zero_nans m obs n i j :
  cell (zero_nans m obs) n i j
  = match cell m n i j, cell obs n i j with
    | Some x, Some o => Some (if isnan o then 0%Z else x)
    | _, _ => None
    end.
Proof.
  unfold cell, zero_nans. rewrite nth_error_map2.
  destruct (nth_error m n) as [ml |]; [| reflexivity].
  destruct (nth_error obs n) as [ol |];
    [| now destruct (nth_error ml i) as [r |];
         [destruct (nth_error r j) |]].
  rewrite nth_error_map2.
  destruct (nth_error ml i) as [mr |]; [| reflexivity].
  destruct (nth_error ol i) as [or |];
    [| now destruct (nth_error mr j)].
  apply nth_error_map2.
Qed.

Lemma all2_nth_error {A B : Type} (p : A -> B -> bool) l : forall m k a,
  all2 p l m = true -> nth_error l k = Some a ->
  exists b, nth_error m k = Some b /\ p a b = true.
Proof.
  induction l as [| x l IH]; intros [| y m] [| k] a; simpl;
    try discriminate.
  - intros H [= <-]. apply andb_true_iff in H. exists y. tauto.
  - intros H. apply andb_true_iff in H. apply IH. tauto.
Qed.

(** In arrays of one shape the same cells exist. *)
Lemma same_shape_cell m obs n i j x :
  same_shape m obs = true -> cell m n i j = Some x ->
  exists o, cell obs n i j = Some o.
Proof.
  unfold same_shape, cell. intros Hs.
  destruct (nth_error m n) as [ml |] eqn:E1; [| discriminate].
  destruct (all2_nth_error _ m obs n ml Hs E1) as (ol & -> & Hl).
  destruct (nth_error ml i) as [mr |] eqn:E2; [| discriminate].
  destruct (all2_nth_error _ ml ol i mr Hl E2) as (orow & -> & Hr).
  intros E3.
  destruct (all2_nth_error _ mr orow j x Hr E3) as (o & -> & _).
  now exists o.
Qed.

Lemma mask_nan_ok m obs :
  same_shape m obs = true -> mask_nan m obs = Ok (zero_nans m obs).
Proof. unfold mask_nan. now intros ->. Qed.

Lemma mask_nan_raise m obs :
  same_shape m obs = false -> mask_nan m obs = Raise IndexError.
Proof. unfold mask_nan. now intros ->. Qed.

(** A mask with a layer too many: the call raises before any pixel is
    processed and leaves the mask as it was. *)
Lemma long_mask_run :
  linear_rate long_mask_store 2 3 1 = (long_mask_store, Raise IndexError).
Proof.
  rewrite (linear_rate_mismatch long_mask_store 2 3 1 1 1 IndexError);
    reflexivity.
Qed.

(** C3, as stated, fails: a mask that selects a missing observation is
    changed by the call. *)
Lemma C3_counterexample :
  s_mst masked_store = Some [[[1%Z]]; [[1%Z]]] /\
  s_mst (fst (linear_rate masked_store 2 3 1)) = Some [[[1%Z]]; [[0%Z]]].
Proof.
  split; [reflexivity |].
  rewrite (linear_rate_unfold masked_store 2 3 1 1 1 [[[1%Z]]; [[0%Z]]])
    by reflexivity.
  reflexivity.
Qed.

(** C3, amended: the interferograms (observations and time spans) and the
    covariance matrix hold the same values after the call as before it.  A
    mask that is passed in and has the shape of the observation stack is
    overwritten in place: a cell becomes 0 where the observation is missing
    and keeps its value elsewhere, and no cell is added or dropped.  A mask
    of another shape makes line 35 raise [IndexError] and is left as it
    was; so is any mask when there is no interferogram at all. *)
Theorem C3_inputs_after_call s pthr nsig maxsig :
  let s' := fst (linear_rate s pthr nsig maxsig) in
  s_ifgs s' = s_ifgs s /\
  s_vcm s' = s_vcm s /\
  s_mst s' = match s_ifgs s, s_mst s with
             | _ :: _, Some m =>
                 if same_shape m (obs_of s)
                 then Some (zero_nans m (obs_of s))
                 else Some m
             | _, old => old
             end /\
  (forall m, s_mst s = Some m -> same_shape m (obs_of s) = true ->
     forall n i j,
       match cell m n i j with
       | Some x =>
           exists o, cell (obs_of s) n i j = Some o /\
                     cell (zero_nans m (obs_of s)) n i j
                     = Some (if isnan o then 0%Z else x)
       | None => cell (zero_nans m (obs_of s)) n i j = None
       end) /\
  (forall m, s_mst s = Some m -> same_shape m (obs_of s) = false ->
     s_ifgs s <> [] ->
     snd (linear_rate s pthr nsig maxsig) = Raise IndexError).
Proof.
  cbv zeta.
  assert (Hcells : forall m, s_mst s = Some m ->
            same_shape m (obs_of s) = true ->
            forall n i j,
              match cell m n i j with
              | Some x =>
                  exists o, cell (obs_of s) n i j = Some o /\
                            cell (zero_nans m (obs_of s)) n i j
                            = Some (if isnan o then 0%Z else x)
              | None => cell (zero_nans m (obs_of s)) n i j = None
              end).
  { intros m _ Hs n i j. rewrite cell_zero_nans.
    destruct (cell m n i j) as [x |] eqn:Ec; [| reflexivity].
    destruct (same_shape_cell m (obs_of s) n i j x Hs Ec) as [o ->].
    now exists o. }
  unfold linear_rate, grid_shape, update_mst.
  destruct (s_ifgs s) as [| x0 rest] eqn:Ei.
  - cbn [fst]. rewrite Ei.
    destruct (s_mst s); repeat split; auto; intros; congruence.
  - destruct (s_mst s) as [m |] eqn:Em.
    + unfold mask_nan. destruct (same_shape m (obs_of s)) eqn:Es;
        cbn [fst snd bind set_mst s_ifgs s_vcm s_mst]; rewrite ?Ei, ?Em;
        repeat split; auto; intros; congruence.
    + cbn [fst snd]. rewrite Ei, Em. repeat split; auto; discriminate.
Qed.

(** ** The rejection test *)

Lemma fold_left_Rmax_spec l : forall x,
  In (fold_left Rmax l x) (x :: l) /\
  (forall y, In y (x :: l) -> y <= fold_left Rmax l x).
Proof.
  induction l as [| a l IH]; intros x; simpl.
  - split; [now left |]. intros y [<- | []]. lra.
  - destruct (IH (Rmax x a)) as [Hin Hle]. split.
    + destruct Hin as [Hin | Hin]; [| now right; right].
      rewrite <- Hin. unfold Rmax. destruct (Rle_dec x a); auto.
    + intros y [<- | [<- | Hy]].
      * apply Rle_trans with (Rmax x a); [apply Rmax_l |].
        apply Hle. now left.
      * apply Rle_trans with (Rmax x a); [apply Rmax_r |].
        apply Hle. now left.
      * apply Hle. now right.
Qed.

Lemma np_max_spec a m :
  np_max a = Ok m -> In m a /\ (forall y, In y a -> y <= m).
Proof.
  destruct a as [| x a]; [discriminate |]. simpl. intros [= <-].
  apply fold_left_Rmax_spec.
Qed.

Lemma existsb_eq_In m row :
  existsb (fun x => x) (map (fun x => Reqb x m) row) = true <-> In m row.
Proof.
  induction row as [| x row IH]; simpl; [split; [discriminate | tauto] |].
  rewrite orb_true_iff, IH, Reqb_eq. tauto.
Qed.

Lemma first_row_from_spec m wr : forall n k,
  first_row_from n (map (map (fun x => Reqb x m)) wr) = Ok k ->
  exists row,
    nth_error wr (k - n) = Some row /\ In m row /\
    (forall a row', (a < k - n)%nat -> nth_error wr a = Some row' ->
                    ~ In m row').
Proof.
  induction wr as [| row wr IH]; intros n k; simpl; [discriminate |].
  destruct (existsb _ _) eqn:E.
  - intros [= <-]. exists row. rewrite Nat.sub_diag.
    apply existsb_eq_In in E. repeat split; auto. intros; lia.
  - intros H. pose proof (first_row_from_bound _ _ _ H) as Hk.
    destruct (IH _ _ H) as (row1 & Hn & Hin & Hfirst).
    exists row1. replace (k - n)%nat with (S (k - S n)) by lia.
    repeat split; auto.
    intros [| a] row' Ha; simpl.
    + intros [= <-] Hin'. apply existsb_eq_In in Hin'. congruence.
    + apply Hfirst. lia.
Qed.

Lemma nth_scaled_rows w r a b :
  (a < length w)%nat -> (a < length r)%nat ->
  nth b (nth a (scaled_rows w r) []) 0
  = Rabs (nth b (nth a w []) 0 * nth a r 0).
Proof.
  intros Hw Hr. unfold scaled_rows.
  rewrite (nth_map2 _ [] 0 []) by assumption.
  set (ra := nth a r 0).
  replace 0 with (Rabs (0 * ra)) at 1
    by (rewrite Rmult_0_l; apply Rabs_R0).
  apply (map_nth (fun x => Rabs (x * ra))).
Qed.

(** On the correlated pair the matrix-vector product [|W . r^T|] of the
    specification has maximum 24/5 (even the largest entry of the
    element-wise product, 9/2, is above 4); the code compares the largest
    diagonal entry of the element-wise product, 15/4, with [nsig]. *)
Lemma elementwise_ratio_V1 :
  solver ifgv1 B1 V1 = Ok (1, Num (1/5)) /\
  (iV <- inv V1 ;; cholesky_upper iV) = Ok [[1/8; -3/20]; [0; 1/5]] /\
  spec_worst_residual ifgv1 B1 V1 1 = Ok (24/5, 0%nat) /\
  np_max (concat (scaled_rows [[1/8; -3/20]; [0; 1/5]]
                              [40 * 1 - 70; 24 * 1 - 17])) = Ok (9/2) /\
  24/5 > 4 /\ 9/2 > 4 /\
  worst_residual ifgv1 B1 V1 1 = Ok (15/4, 0%nat) /\
  body ifgv1 B1 V1 4 [0; 1]%nat = Ok (Save 1 (Num (1/5)) 2).
Proof.
  split; [apply solver_V1 |]. split; [apply factor_V1 |].
  split; [apply spec_worst_residual_V1 |]. split; [apply max_entry_V1 |].
  split; [lra |]. split; [lra |].
  split; [apply worst_residual_V1 | apply body_V1].
Qed.

(** The rejection test of one pass, as the code computes it: [w] is the
    upper Cholesky factor of [inv(V)] for the current subset and [wr] is
    the element-wise product [wr[a][b] = |w[a][b] * r[a]|], a square
    array; [maxr] is the maximum of the diagonal of [wr], and [maxi] is
    the first row of [wr] that holds an entry equal to [maxr], on the
    diagonal or off it. *)
Lemma body_rejection_rule obs_ij span vcm nsig ind verdict :
  body obs_ij span vcm nsig ind = Ok verdict ->
  exists ifgv B V v err w maxr maxi,
    take obs_ij ind = Ok ifgv /\ take span ind = Ok B /\
    submatrix vcm ind = Ok V /\ solver ifgv B V = Ok (v, err) /\
    (iV <- inv V ;; cholesky_upper iV) = Ok w /\
    let r := map2 (fun t y => t * v - y) B (values ifgv) in
    let wr := scaled_rows w r in
    (forall a b, (a < length w)%nat -> (a < length r)%nat ->
       nth b (nth a wr []) 0 = Rabs (nth b (nth a w []) 0 * nth a r 0)) /\
    In maxr (diag wr) /\ (forall x, In x (diag wr) -> x <= maxr) /\
    (exists row, nth_error wr maxi = Some row /\ In maxr row) /\
    (forall a row, (a < maxi)%nat -> nth_error wr a = Some row ->
                   ~ In maxr row) /\
    verdict = (if Rltb nsig maxr then Discard maxi
               else Save v err (length ind)).
Proof.
  unfold body.
  destruct (take obs_ij ind) as [ifgv |] eqn:Ei; [| discriminate].
  cbn [bind].
  destruct (take span ind) as [B |] eqn:EB; [| discriminate]. cbn [bind].
  destruct (submatrix vcm ind) as [V |] eqn:EV; [| discriminate].
  cbn [bind].
  destruct (solver ifgv B V) as [[v err] |] eqn:Es; [| discriminate].
  cbn [bind].
  destruct (worst_residual ifgv B V v) as [[maxr maxi] |] eqn:Ew;
    [| discriminate].
  cbn [bind]. intros Hv. unfold worst_residual in Ew.
  destruct (iV <- inv V;; cholesky_upper iV) as [w |] eqn:Ec;
    [| discriminate].
  cbn [bind] in Ew.
  destruct (np_max _) as [m |] eqn:Em; [| discriminate]. cbn [bind] in Ew.
  destruct (first_row_from _ _) as [k |] eqn:Ef; [| discriminate].
  cbn [bind] in Ew. injection Ew as -> ->.
  exists ifgv, B, V, v, err, w, maxr, maxi.
  repeat (split; [assumption || reflexivity |]). cbv zeta.
  apply np_max_spec in Em. destruct Em as [Hin Hle].
  apply first_row_from_spec in Ef. rewrite Nat.sub_0_r in Ef.
  destruct Ef as (row & Hn & Hr & Hfirst).
  split; [intros a b; apply nth_scaled_rows |].
  split; [assumption |]. split; [assumption |].
  split; [now exists row |]. split; [assumption |].
  apply take_length in Ei.
  destruct (Rltb nsig maxr); congruence.
Qed.




(** ** The candidate set *)

Lemma nonzero_from_In c : forall n k,
  In k (nonzero_from n c) ->
  exists a, k = (n + a)%nat /\ nth_error c a = Some true.
Proof.
  induction c as [| [|] c IH]; intros n k; simpl; [tauto | |].
  - intros [<- | H]; [exists 0%nat; split; [lia | reflexivity] |].
    destruct (IH _ _ H) as (a & -> & Ha). exists (S a). split; [lia | easy].
  - intros H. destruct (IH _ _ H) as (a & -> & Ha).
    exists (S a). split; [lia | easy].
Qed.

Lemma nth_nil_nat {A : Type} (d : A) k : nth k [] d = d.
Proof. now destruct k. Qed.

(** A mask that was passed in never selects a missing observation. *)
Lemma supplied_mask_excludes_nan m m' obs i j n :
  mask_nan m obs = Ok m' ->
  In n (candidates m' i j) ->
  exists y, nth n (pixel NaN obs i j) NaN = Num y.
Proof.
  unfold mask_nan. destruct (same_shape m obs); [| discriminate].
  intros [= <-].
  unfold candidates, nonzero. intros H.
  apply nonzero_from_In in H. destruct H as (a & -> & H). simpl.
  unfold pixel in *. rewrite !nth_error_map in H. unfold zero_nans in H.
  rewrite nth_error_map2 in H.
  destruct (nth_error m a) as [ml |]; [| discriminate].
  destruct (nth_error obs a) as [ol |] eqn:Eo; [| discriminate].
  cbn [option_map] in H.
  set (f := fun (x : Z) (o : val) => if isnan o then 0%Z else x) in H.
  assert (H1 : nth j (nth i (map2 (map2 f) ml ol) []) 0%Z = 1%Z).
  { symmetry. apply Z.eqb_eq. congruence. }
  clear H.
  assert (Ho : nth a (map (fun layer => nth j (nth i layer []) NaN) obs) NaN
               = nth j (nth i ol []) NaN).
  { apply nth_error_nth. rewrite nth_error_map, Eo. reflexivity. }
  rewrite Ho.
  destruct (Nat.lt_ge_cases i (length (map2 (map2 f) ml ol))) as [Hi | Hi].
  2: { rewrite (nth_overflow _ _ Hi), nth_nil_nat in H1. discriminate. }
  rewrite length_map2 in Hi.
  rewrite (nth_map2 (map2 f) [] [] []) in H1 by lia.
  set (mr := nth i ml []) in *. set (orow := nth i ol []) in *.
  destruct (Nat.lt_ge_cases j (length (map2 f mr orow))) as [Hj | Hj].
  2: { rewrite (nth_overflow _ _ Hj) in H1. discriminate. }
  rewrite length_map2 in Hj.
  rewrite (nth_map2 f 0%Z NaN 0%Z) in H1 by lia. unfold f in H1.
  destruct (nth j orow NaN) as [| y]; [discriminate | now exists y].
Qed.

(** ** The defects, evaluated *)

(** C4 on the code: without a mask the local array of ones selects every
    interferogram, the missing one included, and the finiteness check of
    [solve] then raises. *)
Theorem C4_default_mask_keeps_missing :
  snd (update_mst unmasked_store 1 1) = Ok (ones 2 1 1) /\
  candidates (ones 2 1 1) 0 0 = [0; 1]%nat /\
  nth 1 (pixel NaN (obs_of unmasked_store) 0 0) NaN = NaN /\
  linear_rate unmasked_store 2 3 1 = (unmasked_store, Raise NotFinite).
Proof. repeat split; try reflexivity. apply unmasked_run. Qed.

(** After the second assignment of the final pass no cell of [error]
    exceeds [maxsig], so the third assignment changes nothing. *)
Lemma post_pass_keeps_samples g maxsig i j :
  (i < length (samples g))%nat -> (i < length (error g))%nat ->
  (j < length (nth i (samples g) []))%nat ->
  (j < length (nth i (error g) []))%nat ->
  get2 (samples (post_pass g maxsig)) i j = get2 (samples g) i j.
Proof.
  intros Hi1 Hi2 Hj1 Hj2. unfold post_pass. cbn [samples].
  unfold get2, reset_above.
  set (f := fun (x e : val) => if val_gt e maxsig then NaN else x).
  rewrite (nth_map2 (map2 f) [] [] []);
    [| assumption | rewrite length_map2; lia].
  rewrite (nth_map2 (map2 f) [] [] []) by assumption.
  rewrite (nth_map2 f NaN NaN NaN);
    [| assumption | rewrite length_map2; lia].
  rewrite (nth_map2 f NaN NaN NaN) by assumption.
  unfold f at 1. unfold f.
  destruct (val_gt (nth j (nth i (error g) []) NaN) maxsig) eqn:E;
    [reflexivity | now rewrite E].
Qed.

(** C2 on the code: the fit of [pair_store] has error 1/5, above
    [maxsig = 1/10]; the final pass resets rate and error and leaves the
    sample count 2 in place. *)
Theorem C2_sample_count_not_reset :
  all_pixels (obs_of pair_store) (span_of pair_store) I2 (ones 2 1 1) 2 3
             1 1 {| rate := [[NaN]]; error := [[NaN]]; samples := [[NaN]] |}
  = Ok {| rate := [[Num 2]]; error := [[Num (1/5)]];
          samples := [[Num 2]] |} /\
  1/5 > 1/10 /\
  snd (linear_rate pair_store 2 3 (1/10))
  = Ok {| rate := [[NaN]]; error := [[NaN]]; samples := [[Num 2]] |}.
Proof.
  split; [apply pair_pixels |]. split; [lra |]. now rewrite pair_run.
Qed.

(** C7 on the code: the pixel of [pair_store] is returned with an undefined
    rate and error and a defined sample count. *)
Theorem C7_partial_pixel :
  exists g,
    snd (linear_rate pair_store 2 3 (1/10)) = Ok g /\
    get2 (rate g) 0 0 = NaN /\ get2 (error g) 0 0 = NaN /\
    get2 (samples g) 0 0 = Num 2.
Proof.
  exists {| rate := [[NaN]]; error := [[NaN]]; samples := [[Num 2]] |}.
  rewrite pair_run. repeat split.
Qed.

(** * Further properties of [linear_rate] *)

(** ** Updates of a grid *)

Lemma length_upd {A : Type} (f : A -> A) n l : length (upd n f l) = length l.
Proof.
  revert n; induction l as [| x l IH]; intros [| n]; simpl; auto.
Qed.

Lemma nth_upd_same {A : Type} (f : A -> A) (d : A) n l :
  (n < length l)%nat -> nth n (upd n f l) d = f (nth n l d).
Proof.
  revert n; induction l as [| x l IH]; intros [| n]; simpl; try lia; auto.
  intros H. apply IH. lia.
Qed.

Lemma nth_upd_other {A : Type} (f : A -> A) (d : A) n k l :
  k <> n -> nth k (upd n f l) d = nth k l d.
Proof.
  revert n k; induction l as [| x l IH]; intros [| n] [| k]; simpl; auto;
    try congruence.
Qed.

Lemma In_upd {A : Type} (f : A -> A) n l y :
  In y (upd n f l) -> In y l \/ exists x, In x l /\ y = f x.
Proof.
  revert n; induction l as [| x l IH]; intros [| n]; simpl; auto.
  - intros [<- | H]; [right; exists x; auto | auto].
  - intros [<- | H]; [auto |].
    destruct (IH n H) as [H1 | (x0 & H1 & ->)]; [auto |].
    right. exists x0. auto.
Qed.

Lemma shaped_set2 rows cols g i j x :
  shaped rows cols g -> shaped rows cols (set2 g i j x).
Proof.
  intros [Hl Hr]. unfold set2. split; [now rewrite length_upd |].
  intros row Hin. apply In_upd in Hin.
  destruct Hin as [Hin | (r0 & Hin & ->)]; [now apply Hr |].
  rewrite length_upd. now apply Hr.
Qed.

Lemma shaped_row rows cols g i :
  shaped rows cols g -> (i < rows)%nat -> length (nth i g []) = cols.
Proof. intros [Hl Hr] Hi. apply Hr, nth_In. lia. Qed.

Lemma get2_set2_same rows cols g i j x :
  shaped rows cols g -> (i < rows)%nat -> (j < cols)%nat ->
  get2 (set2 g i j x) i j = x.
Proof.
  intros Hs Hi Hj. unfold get2, set2.
  rewrite nth_upd_same by (destruct Hs; lia).
  apply (nth_upd_same (fun _ => x)). now rewrite (shaped_row _ _ _ _ Hs Hi).
Qed.

Lemma get2_set2_other g i j x i' j' :
  (i', j') <> (i, j) -> get2 (set2 g i j x) i' j' = get2 g i' j'.
Proof.
  intros Hne. unfold get2, set2.
  destruct (Nat.eq_dec i' i) as [-> | Hi].
  - destruct (nth_upd (upd j (fun _ => x)) [] i g i) as [-> | (_ & _ & ->)];
      [reflexivity |].
    apply nth_upd_other. congruence.
  - now rewrite nth_upd_other.
Qed.

(** ** What the pixel loop writes *)

Section Written.

Variable obs : cube val.
Variable span : vec.
Variable vcm : mat.
Variable mst : cube Z.
Variable pthr : Z.
Variable nsig : R.
Variables rows cols : nat.

Let outcome_at := pixel_outcome obs span vcm mst pthr nsig.
Let run := run_pixel obs span vcm mst pthr nsig.

Lemma run_pixel_writes i j g g' :
  grids_shaped rows cols g -> (i < rows)%nat -> (j < cols)%nat ->
  run i j g = Ok g' ->
  grids_shaped rows cols g' /\
  triple_at g' i j = stamp (outcome_at i j) (triple_at g i j) /\
  forall i' j', (i', j') <> (i, j) -> triple_at g' i' j' = triple_at g i' j'.
Proof.
  intros (Hr & He & Hn) Hi Hj. unfold run, run_pixel, outcome_at.
  destruct (pixel_outcome obs span vcm mst pthr nsig i j)
    as [v err n | | e |]; try discriminate; intros [= <-].
  - split; [split; [| split]; cbn [rate error samples];
            apply shaped_set2; assumption |].
    split.
    + unfold triple_at, stamp. cbn [rate error samples].
      now rewrite !(get2_set2_same rows cols).
    + intros i' j' Hne. unfold triple_at. cbn [rate error samples].
      now rewrite !get2_set2_other.
  - split; [split; [| split]; assumption |]. split; [reflexivity | auto].
  - split; [split; [| split]; assumption |]. split; [reflexivity | auto].
Qed.

Lemma row_writes i len : forall a g g',
  grids_shaped rows cols g -> (i < rows)%nat -> (a + len <= cols)%nat ->
  for_each (seq a len) (run i) g = Ok g' ->
  grids_shaped rows cols g' /\
  (forall j, (a <= j < a + len)%nat ->
     triple_at g' i j = stamp (outcome_at i j) (triple_at g i j)) /\
  (forall i' j', ~ (i' = i /\ (a <= j' < a + len)%nat) ->
     triple_at g' i' j' = triple_at g i' j').
Proof.
  induction len as [| len IH]; intros a g g' Hs Hi Ha; simpl.
  - intros [= <-]. split; [assumption |]. split; [intros j Hj; lia | auto].
  - destruct (run i a g) as [g1 |] eqn:E1; [| discriminate]. cbn [bind].
    intros Hrest.
    destruct (run_pixel_writes i a g g1 Hs Hi ltac:(lia) E1)
      as (Hs1 & Hat & Hoth).
    destruct (IH (S a) g1 g' Hs1 Hi ltac:(lia) Hrest)
      as (Hs' & Hin & Hout).
    split; [assumption |]. split.
    + intros j Hj. destruct (Nat.eq_dec j a) as [-> | Hne].
      * rewrite Hout by lia. exact Hat.
      * rewrite Hin by lia. rewrite (Hoth i j) by congruence. reflexivity.
    + intros i' j' Hn. rewrite Hout by lia. apply Hoth.
      intros [= -> ->]. apply Hn. lia.
Qed.

Lemma grid_writes len : forall a g g',
  grids_shaped rows cols g -> (a + len <= rows)%nat ->
  for_each (seq a len) (fun i => for_each (seq 0 cols) (run i)) g = Ok g' ->
  grids_shaped rows cols g' /\
  (forall i j, (a <= i < a + len)%nat -> (j < cols)%nat ->
     triple_at g' i j = stamp (outcome_at i j) (triple_at g i j)) /\
  (forall i j, ~ ((a <= i < a + len)%nat /\ (j < cols)%nat) ->
     triple_at g' i j = triple_at g i j).
Proof.
  induction len as [| len IH]; intros a g g' Hs Ha; simpl.
  - intros [= <-]. split; [assumption |]. split; [intros; lia | auto].
  - destruct (for_each (seq 0 cols) (run a) g) as [g1 |] eqn:E1;
      [| discriminate].
    cbn [bind]. intros Hrest.
    destruct (row_writes a cols 0 g g1 Hs ltac:(lia) ltac:(lia) E1)
      as (Hs1 & Hat & Hoth).
    destruct (IH (S a) g1 g' Hs1 ltac:(lia) Hrest) as (Hs' & Hin & Hout).
    split; [assumption |]. split.
    + intros i j Hi Hj. destruct (Nat.eq_dec i a) as [-> | Hne].
      * rewrite Hout by lia. apply Hat. lia.
      * rewrite Hin by lia. rewrite (Hoth i j) by lia. reflexivity.
    + intros i j Hn. rewrite Hout by lia. apply Hoth. lia.
Qed.

(** After the pixel loop every cell of the grid holds what the loop of its
    own pixel wrote, or what it held before. *)
Lemma all_pixels_writes g g' :
  grids_shaped rows cols g ->
  all_pixels obs span vcm mst pthr nsig rows cols g = Ok g' ->
  grids_shaped rows cols g' /\
  forall i j, (i < rows)%nat -> (j < cols)%nat ->
    triple_at g' i j = stamp (outcome_at i j) (triple_at g i j).
Proof.
  intros Hs H. unfold all_pixels in H.
  destruct (grid_writes rows 0 g g' Hs ltac:(lia) H) as (Hs' & Hin & _).
  split; [assumption |]. intros i j Hi Hj. apply Hin; lia.
Qed.

End Written.

(** ** The final pass on grids of one shape *)

Lemma shaped_nans rows cols : shaped rows cols (repeat (repeat NaN cols) rows).
Proof.
  split; [apply repeat_length |].
  intros row Hin. apply repeat_spec in Hin. subst. apply repeat_length.
Qed.

Lemma get2_outside rows cols g i j :
  shaped rows cols g -> ~ ((i < rows)%nat /\ (j < cols)%nat) ->
  get2 g i j = NaN.
Proof.
  intros Hs Hn. unfold get2.
  destruct (Nat.lt_ge_cases i rows) as [Hi | Hi].
  - apply nth_overflow. rewrite (shaped_row rows cols g i Hs Hi). lia.
  - rewrite (nth_overflow g) by (destruct Hs; lia). now destruct j.
Qed.

Lemma shaped_reset_above rows cols a e m :
  shaped rows cols a -> shaped rows cols e ->
  shaped rows cols (reset_above a e m).
Proof.
  intros [Hla Hra] [Hle Hre]. unfold reset_above. split.
  - rewrite length_map2. lia.
  - intros row Hin. apply In_map2 in Hin.
    destruct Hin as (ra & re & -> & Ha & He).
    rewrite length_map2, (Hra ra Ha), (Hre re He). apply Nat.min_id.
Qed.

Lemma get2_reset_above_in rows cols a e m i j :
  shaped rows cols a -> shaped rows cols e ->
  (i < rows)%nat -> (j < cols)%nat ->
  get2 (reset_above a e m) i j
  = if val_gt (get2 e i j) m then NaN else get2 a i j.
Proof.
  intros Ha He Hi Hj. unfold get2, reset_above.
  rewrite (nth_map2 _ [] [] []) by (destruct Ha, He; lia).
  apply (nth_map2 (fun x e0 => if val_gt e0 m then NaN else x)
                  NaN NaN NaN).
  - now rewrite (shaped_row rows cols a i Ha Hi).
  - now rewrite (shaped_row rows cols e i He Hi).
Qed.

Lemma post_pass_shaped rows cols g m :
  grids_shaped rows cols g -> grids_shaped rows cols (post_pass g m).
Proof.
  intros (Hr & He & Hn). unfold post_pass.
  split; [| split]; cbn [rate error samples];
    repeat apply shaped_reset_above; assumption.
Qed.

Lemma post_pass_triple rows cols g m i j :
  grids_shaped rows cols g -> (i < rows)%nat -> (j < cols)%nat ->
  triple_at (post_pass g m) i j = capped m (triple_at g i j).
Proof.
  intros (Hr & He & Hn) Hi Hj. unfold triple_at, post_pass, capped.
  cbn [rate error samples].
  assert (He1 : shaped rows cols (reset_above (error g) (error g) m))
    by (now apply shaped_reset_above).
  rewrite !(get2_reset_above_in rows cols) by assumption.
  destruct (get2 (error g) i j) as [| e]; cbn [val_gt]; [reflexivity |].
  destruct (Rltb m e) eqn:E; cbn [val_gt]; [reflexivity | now rewrite E].
Qed.

(** A call that returns grids has got past the update of the mask. *)
Lemma linear_rate_updated s pthr nsig maxsig rows cols g :
  grid_shape (s_ifgs s) = Ok (rows, cols) ->
  snd (linear_rate s pthr nsig maxsig) = Ok g ->
  exists mst, snd (update_mst s rows cols) = Ok mst.
Proof.
  intros Hs. destruct (snd (update_mst s rows cols)) as [mst | e] eqn:Em.
  - intros _. now exists mst.
  - rewrite (linear_rate_mismatch s pthr nsig maxsig rows cols e Hs Em).
    discriminate.
Qed.

(** The grids returned by a call, cell by cell. *)
Lemma linear_rate_triples s pthr nsig maxsig rows cols mst g :
  grid_shape (s_ifgs s) = Ok (rows, cols) ->
  snd (update_mst s rows cols) = Ok mst ->
  snd (linear_rate s pthr nsig maxsig) = Ok g ->
  grids_shaped rows cols g /\
  forall i j, (i < rows)%nat -> (j < cols)%nat ->
    triple_at g i j
    = capped maxsig
        (stamp (pixel_outcome (obs_of s) (span_of s) (s_vcm s)
                  mst pthr nsig i j)
               (NaN, NaN, NaN)).
Proof.
  intros Hs Hm.
  rewrite (linear_rate_unfold s pthr nsig maxsig rows cols mst Hs Hm).
  cbn [snd]. destruct (all_pixels _ _ _ _ _ _ _ _ _) as [g1 |] eqn:E;
    [| discriminate].
  cbn [bind]. intros [= <-].
  apply all_pixels_writes in E.
  - destruct E as [Hs1 Hat]. split; [now apply post_pass_shaped |].
    intros i j Hi Hj.
    rewrite (post_pass_triple rows cols g1 maxsig i j Hs1 Hi Hj).
    rewrite (Hat i j Hi Hj). unfold triple_at. cbn [rate error samples].
    now rewrite get2_nans.
  - split; [| split]; apply shaped_nans.
Qed.

(** ** Facts about the loop of one pixel *)

Lemma solver_err_positive ifgv B V v e :
  solver ifgv B V = Ok (v, Num e) -> 0 < e.
Proof.
  unfold solver.
  destruct (cholesky_lower V) as [T |]; [| discriminate]. cbn [bind].
  destruct (solve T B) as [A |]; [| discriminate]. cbn [bind].
  destruct (y <- finite ifgv;; solve T y) as [b |]; [| discriminate].
  cbn [bind]. destruct (qr A) as [Q Rq].
  destruct (solve [[Rq]] [dot Q b]) as [x |]; [| discriminate].
  cbn [bind]. destruct (inv V) as [iV |]; [| discriminate]. cbn [bind].
  set (err2 := dot B (mat_vec iV B)).
  destruct (Req_dec_T err2 0) as [E0 | E0].
  - rewrite E0, inv_1_singular. discriminate.
  - rewrite (inv_1 err2 E0). cbn [bind diag length seq map nth hd].
    unfold np_sqrt. destruct (Rltb (1 / err2) 0) eqn:El; [discriminate |].
    intros [= _ <-].
    assert (Hn : ~ 1 / err2 < 0) by (intros H; apply Rltb_lt in H; congruence).
    assert (Hne : 1 / err2 <> 0).
    { unfold Rdiv. rewrite Rmult_1_l. now apply Rinv_neq_0_compat. }
    apply sqrt_lt_R0. lra.
Qed.

Lemma nonzero_from_length c : forall n,
  (length (nonzero_from n c) <= length c)%nat.
Proof.
  induction c as [| [|] c IH]; intros n; simpl; auto.
  - specialize (IH (S n)). lia.
Qed.

Lemma candidates_length mst i j :
  (length (candidates mst i j) <= length mst)%nat.
Proof.
  unfold candidates, nonzero, pixel.
  etransitivity; [apply nonzero_from_length |]. now rewrite !length_map.
Qed.

Lemma update_mst_length s rows cols mst :
  snd (update_mst s rows cols) = Ok mst ->
  (length mst <= length (s_ifgs s))%nat.
Proof.
  unfold update_mst. destruct (s_mst s) as [m |]; cbn [snd].
  - unfold mask_nan. destruct (same_shape m (obs_of s)); cbn [snd];
      [| discriminate].
    intros [= <-]. unfold zero_nans, obs_of.
    rewrite length_map2, length_map. lia.
  - intros [= <-]. unfold ones. now rewrite repeat_length.
Qed.

Section OutcomeFacts.

Variable obs_ij : list val.
Variable span : vec.
Variable vcm : mat.
Variable pthr : Z.
Variable nsig : R.

Let loop1 := while_loop obs_ij span vcm pthr nsig.

Lemma body_save_error ind v e n :
  body obs_ij span vcm nsig ind = Ok (Save v (Num e) n) -> 0 < e.
Proof.
  unfold body.
  destruct (take obs_ij ind) as [ifgv |]; [| discriminate]. cbn [bind].
  destruct (take span ind) as [B |]; [| discriminate]. cbn [bind].
  destruct (submatrix vcm ind) as [V |]; [| discriminate]. cbn [bind].
  destruct (solver ifgv B V) as [[v0 err0] |] eqn:Es; [| discriminate].
  cbn [bind].
  destruct (worst_residual ifgv B V v0) as [[maxr maxi] |];
    [| discriminate].
  cbn [bind]. destruct (Rltb nsig maxr); [discriminate |].
  intros [= -> -> _]. eapply solver_err_positive; eassumption.
Qed.

(** What a converged loop reports: a positive error (if any) and a count
    between [pthr] and the size of the candidate set it started from. *)
Lemma while_loop_report fuel : forall ind v err n,
  loop1 fuel ind = Converged v err n ->
  (pthr <= Z.of_nat n)%Z /\ (n <= length ind)%nat /\
  (forall e, err = Num e -> 0 < e).
Proof.
  induction fuel as [| fuel IH]; intros ind v err n; unfold loop1; simpl.
  - destruct (Z.of_nat (length ind) <? pthr)%Z; discriminate.
  - destruct (Z.of_nat (length ind) <? pthr)%Z eqn:E; [discriminate |].
    apply Z.ltb_ge in E.
    destruct (body obs_ij span vcm nsig ind)
      as [[maxi | v0 err0 n0] | e] eqn:Eb; try discriminate.
    + destruct (np_delete ind maxi) as [ind' | e] eqn:Ed; [| discriminate].
      intros H. apply IH in H. apply np_delete_length in Ed.
      destruct H as (H1 & H2 & H3). repeat split; auto. lia.
    + intros [= <- <- <-].
      pose proof (body_save_length obs_ij span vcm nsig ind v0 err0 n0 Eb).
      repeat split; try lia.
      intros e ->. eapply body_save_error; eassumption.
Qed.

(** With fewer candidates than [pthr] the body of the loop is never
    entered. *)
Lemma while_loop_insufficient fuel ind :
  (Z.of_nat (length ind) < pthr)%Z -> loop1 fuel ind = Insufficient.
Proof.
  intros H. apply Z.ltb_lt in H. unfold loop1.
  destruct fuel; simpl; now rewrite H.
Qed.

End OutcomeFacts.

(** ** The returned grids *)

Lemma linear_rate_shape s pthr nsig maxsig g :
  snd (linear_rate s pthr nsig maxsig) = Ok g ->
  exists rows cols, grid_shape (s_ifgs s) = Ok (rows, cols).
Proof.
  unfold linear_rate.
  destruct (grid_shape (s_ifgs s)) as [[rows cols] |]; [| discriminate].
  intros _. now exists rows, cols.
Qed.

(** A cell of the returned grids is undefined throughout, or it belongs to
    a pixel whose loop converged. *)
Lemma linear_rate_cases s pthr nsig maxsig g i j :
  snd (linear_rate s pthr nsig maxsig) = Ok g ->
  triple_at g i j = (NaN, NaN, NaN) \/
  exists rows cols mst v err n,
    grid_shape (s_ifgs s) = Ok (rows, cols) /\
    snd (update_mst s rows cols) = Ok mst /\
    pixel_outcome (obs_of s) (span_of s) (s_vcm s) mst pthr nsig i j
    = Converged v err n /\
    triple_at g i j = capped maxsig (Num v, err, Num (INR n)).
Proof.
  intros Hg. destruct (linear_rate_shape s pthr nsig maxsig g Hg)
    as (rows & cols & Hs).
  destruct (linear_rate_updated s pthr nsig maxsig rows cols g Hs Hg)
    as [mst Hm].
  destruct (linear_rate_triples s pthr nsig maxsig rows cols mst g Hs Hm Hg)
    as [(Hr & He & Hn) Hat].
  destruct (Nat.lt_ge_cases i rows) as [Hi | Hi];
    [destruct (Nat.lt_ge_cases j cols) as [Hj | Hj] |].
  - rewrite (Hat i j Hi Hj).
    destruct (pixel_outcome _ _ _ _ _ _ i j) as [v err n | | e |] eqn:Eo;
      try (now left).
    right. exists rows, cols, mst, v, err, n. auto.
  - left. unfold triple_at.
    rewrite !(get2_outside rows cols) by (assumption || lia). reflexivity.
  - left. unfold triple_at.
    rewrite !(get2_outside rows cols) by (assumption || lia). reflexivity.
Qed.

Lemma pair_outcome :
  pixel_outcome (obs_of pair_store) (span_of pair_store) (s_vcm pair_store)
                (ones 2 1 1) 2 3 0 0
  = Converged 2 (Num (1/5)) 2.
Proof.
  unfold pixel_outcome.
  change (candidates (ones 2 1 1) 0 0) with [0; 1]%nat.
  cbn [length while_loop]. change (Z.of_nat 2 <? 2)%Z with false.
  cbv iota. now rewrite body_pair.
Qed.

Lemma pair_run_loose :
  snd (linear_rate pair_store 2 3 1)
  = Ok {| rate := [[Num 2]]; error := [[Num (1/5)]];
          samples := [[Num 2]] |}.
Proof.
  rewrite (linear_rate_unfold pair_store 2 3 1 1 1 (ones 2 1 1))
    by reflexivity.
  change (update_mst pair_store 1 1) with (pair_store, Ok (ones 2 1 1)).
  cbn [fst snd repeat]. change (s_vcm pair_store) with I2.
  rewrite pair_pixels.
  cbn [bind]. unfold post_pass, reset_above.
  cbn [rate error samples map2 val_gt].
  rewrite Rltb_false by lra. cbn [val_gt].
  rewrite Rltb_false by lra. reflexivity.
Qed.

(** X1: each pixel of the returned grids is determined by the loop of that
    pixel alone: all three cells are undefined when the loop did not
    converge; when it converged with [v], [err] and [n] the cells are
    [(v, err, n)], except that an [err] above [maxsig] turns rate and error
    into NaN and leaves the count. *)
Theorem X1_pixel_report s pthr nsig maxsig rows cols mst g i j :
  grid_shape (s_ifgs s) = Ok (rows, cols) ->
  snd (update_mst s rows cols) = Ok mst ->
  snd (linear_rate s pthr nsig maxsig) = Ok g ->
  (i < rows)%nat -> (j < cols)%nat ->
  match pixel_outcome (obs_of s) (span_of s) (s_vcm s)
                      mst pthr nsig i j with
  | Converged v err n =>
      triple_at g i j = if val_gt err maxsig then (NaN, NaN, Num (INR n))
                        else (Num v, err, Num (INR n))
  | _ => triple_at g i j = (NaN, NaN, NaN)
  end.
Proof.
  intros Hs Hm Hg Hi Hj.
  destruct (linear_rate_triples s pthr nsig maxsig rows cols mst g Hs Hm Hg)
    as [_ Hat].
  rewrite (Hat i j Hi Hj).
  now destruct (pixel_outcome _ _ _ _ _ _ i j).
Qed.

Lemma X1_pixel_report_witness :
  match pixel_outcome (obs_of pair_store) (span_of pair_store)
                      (s_vcm pair_store) (ones 2 1 1) 2 3 0 0 with
  | Converged v err n =>
      triple_at {| rate := [[NaN]]; error := [[NaN]];
                   samples := [[Num 2]] |} 0 0
      = if val_gt err (1/10) then (NaN, NaN, Num (INR n))
        else (Num v, err, Num (INR n))
  | _ => triple_at {| rate := [[NaN]]; error := [[NaN]];
                      samples := [[Num 2]] |} 0 0 = (NaN, NaN, NaN)
  end.
Proof.
  apply (X1_pixel_report pair_store 2 3 (1/10) 1 1 (ones 2 1 1)).
  - reflexivity.
  - reflexivity.
  - now rewrite pair_run.
  - lia.
  - lia.
Defined.

(** X3: an error cell of the returned grids that holds a number holds one
    that is positive and at most [maxsig]. *)
Theorem X3_error_within_cap s pthr nsig maxsig g i j e :
  snd (linear_rate s pthr nsig maxsig) = Ok g ->
  get2 (error g) i j = Num e ->
  0 < e <= maxsig.
Proof.
  intros Hg He.
  destruct (linear_rate_cases s pthr nsig maxsig g i j Hg)
    as [H | (rows & cols & mst & v & err & n & _ & Hm & Ho & H)];
    unfold triple_at, capped in H.
  - injection H as _ H _. congruence.
  - destruct (val_gt err maxsig) eqn:E; injection H as _ H _;
      rewrite He in H; [discriminate |].
    subst err. cbn [val_gt] in E.
    unfold pixel_outcome in Ho. apply while_loop_report in Ho.
    destruct Ho as (_ & _ & Hpos). split; [now apply Hpos |].
    destruct (Rle_lt_dec e maxsig) as [Hle | Hlt]; [assumption |].
    apply Rltb_true in Hlt. congruence.
Qed.

Lemma X3_error_within_cap_witness :
  snd (linear_rate pair_store 2 3 1)
  = Ok {| rate := [[Num 2]]; error := [[Num (1/5)]];
          samples := [[Num 2]] |} /\
  0 < 1/5 <= 1.
Proof.
  split; [apply pair_run_loose |].
  apply (X3_error_within_cap pair_store 2 3 1 _ 0 0 (1/5) pair_run_loose).
  reflexivity.
Defined.

(** X4: in the returned grids the defined cells are nested: where the error
    is a number the rate is one, and where the rate is a number the sample
    count is one. *)
Theorem X4_defined_cells_nested s pthr nsig maxsig g i j :
  snd (linear_rate s pthr nsig maxsig) = Ok g ->
  (isnan (get2 (error g) i j) = false ->
   isnan (get2 (rate g) i j) = false) /\
  (isnan (get2 (rate g) i j) = false ->
   isnan (get2 (samples g) i j) = false).
Proof.
  intros Hg.
  destruct (linear_rate_cases s pthr nsig maxsig g i j Hg)
    as [H | (rows & cols & mst & v & err & n & _ & _ & _ & H)];
    unfold triple_at, capped in H.
  - injection H as -> -> ->. split; intros H; exact H.
  - destruct (val_gt err maxsig); injection H as -> -> ->; split; auto.
Qed.

Lemma X4_defined_cells_nested_witness :
  (isnan (get2 [[Num (1/5)]] 0 0) = false ->
   isnan (get2 [[Num 2]] 0 0) = false) /\
  (isnan (get2 [[Num 2]] 0 0) = false ->
   isnan (get2 [[Num 2]] 0 0) = false).
Proof.
  exact (X4_defined_cells_nested pair_store 2 3 1 _ 0 0 pair_run_loose).
Defined.

(** X5: a sample count in the returned grids that is a number is a whole
    number between [pthr] and the number of interferograms. *)
Theorem X5_sample_count_range s pthr nsig maxsig g i j x :
  snd (linear_rate s pthr nsig maxsig) = Ok g ->
  get2 (samples g) i j = Num x ->
  exists n : nat,
    x = INR n /\ (pthr <= Z.of_nat n)%Z /\ (n <= length (s_ifgs s))%nat.
Proof.
  intros Hg Hx.
  destruct (linear_rate_cases s pthr nsig maxsig g i j Hg)
    as [H | (rows & cols & mst & v & err & n & _ & Hm & Ho & H)];
    unfold triple_at, capped in H.
  - injection H as _ _ H. congruence.
  - assert (Hn : x = INR n).
    { destruct (val_gt err maxsig); injection H as _ _ H; congruence. }
    exists n. split; [assumption |].
    unfold pixel_outcome in Ho. apply while_loop_report in Ho.
    destruct Ho as (Hlo & Hhi & _). split; [assumption |].
    pose proof (candidates_length mst i j).
    pose proof (update_mst_length s rows cols mst Hm). lia.
Qed.

Lemma X5_sample_count_range_witness :
  exists n : nat,
    2 = INR n /\ (2 <= Z.of_nat n)%Z /\ (n <= length pair_ifgs)%nat.
Proof.
  apply (X5_sample_count_range pair_store 2 3 1 _ 0 0 2 pair_run_loose).
  reflexivity.
Defined.

(** X6: the three returned grids have the shape of the phase grid of the
    first interferogram. *)
Theorem X6_output_shape s pthr nsig maxsig rows cols g :
  grid_shape (s_ifgs s) = Ok (rows, cols) ->
  snd (linear_rate s pthr nsig maxsig) = Ok g ->
  grids_shaped rows cols g.
Proof.
  intros Hs Hg.
  destruct (linear_rate_updated s pthr nsig maxsig rows cols g Hs Hg)
    as [mst Hm].
  now destruct (linear_rate_triples s pthr nsig maxsig rows cols mst g
                  Hs Hm Hg).
Qed.

Lemma X6_output_shape_witness :
  grids_shaped 1 1 {| rate := [[Num 2]]; error := [[Num (1/5)]];
                      samples := [[Num 2]] |}.
Proof.
  apply (X6_output_shape pair_store 2 3 1 1 1).
  - reflexivity.
  - apply pair_run_loose.
Defined.

(** ** Too few interferograms *)

Lemma for_each_skip {S : Type} l (f : nat -> S -> exc S) s :
  (forall x, In x l -> f x s = Ok s) -> for_each l f s = Ok s.
Proof.
  induction l as [| x l IH]; intros H; simpl; [reflexivity |].
  rewrite (H x) by now left. cbn [bind]. apply IH.
  intros y Hy. apply H. now right.
Qed.

Lemma reset_above_nans rows cols m :
  reset_above (repeat (repeat NaN cols) rows)
              (repeat (repeat NaN cols) rows) m
  = repeat (repeat NaN cols) rows.
Proof.
  unfold reset_above. induction rows as [| rows IH]; simpl; [reflexivity |].
  rewrite IH. f_equal. clear IH.
  induction cols as [| cols IH]; simpl; [reflexivity | now rewrite IH].
Qed.

(** On input of one shape the update of the mask does not raise. *)
Lemma all2_true {A B : Type} (p : A -> B -> bool) l : forall m,
  length l = length m ->
  (forall a b, In a l -> In b m -> p a b = true) ->
  all2 p l m = true.
Proof.
  induction l as [| x l IH]; intros [| y m]; simpl; try discriminate; auto.
  intros Hl Hp. rewrite (Hp x y) by now left. cbn [andb].
  apply IH; [now apply eq_add_S |]. intros a b Ha Hb. apply Hp; now right.
Qed.

Lemma well_shaped_same_shape s rows cols m :
  well_shaped s rows cols -> s_mst s = Some m ->
  same_shape m (obs_of s) = true.
Proof.
  intros (Hifgs & _ & Hmst) Em. destruct (Hmst m Em) as [Hlen Hlayers].
  unfold same_shape, obs_of. apply all2_true.
  - now rewrite length_map.
  - intros layer o Hl Ho. apply in_map_iff in Ho.
    destruct Ho as (x & <- & Hx). destruct (Hifgs x Hx) as [Hrows Hcols].
    destruct (Hlayers layer Hl) as [Hlr Hlc]. apply all2_true.
    + now rewrite Hlr, Hrows.
    + intros row orow Hr Hor. apply all2_true; [| reflexivity].
      now rewrite (Hlc row Hr), (Hcols orow Hor).
Qed.

Lemma well_shaped_updated s rows cols :
  well_shaped s rows cols ->
  exists mst, snd (update_mst s rows cols) = Ok mst.
Proof.
  intros Hw. unfold update_mst. destruct (s_mst s) as [m |] eqn:Em.
  - rewrite (mask_nan_ok m (obs_of s)
               (well_shaped_same_shape s rows cols m Hw Em)).
    now eexists.
  - now eexists.
Qed.

Lemma pair_well_shaped : well_shaped pair_store 1 1.
Proof.
  split; [| split].
  - intros x [<- | [<- | []]]; split; try reflexivity;
      intros row [<- | []]; reflexivity.
  - split; [reflexivity |]. intros row [<- | [<- | []]]; reflexivity.
  - discriminate.
Qed.

(** X2: on interferograms of one shape (and a mask, if any, of that
    shape), when [pthr] exceeds the number of interferograms no pixel has
    enough candidates: the body of the loop is never entered, nothing is
    raised, and all three grids are returned undefined throughout. *)
Theorem X2_too_few_interferograms s pthr nsig maxsig rows cols :
  grid_shape (s_ifgs s) = Ok (rows, cols) ->
  well_shaped s rows cols ->
  (Z.of_nat (length (s_ifgs s)) < pthr)%Z ->
  snd (linear_rate s pthr nsig maxsig)
  = Ok {| rate := repeat (repeat NaN cols) rows;
          error := repeat (repeat NaN cols) rows;
          samples := repeat (repeat NaN cols) rows |}.
Proof.
  intros Hs Hw Hp. destruct (well_shaped_updated s rows cols Hw) as [mst Hm].
  rewrite (linear_rate_unfold s pthr nsig maxsig rows cols mst Hs Hm).
  cbn [snd]. unfold all_pixels.
  rewrite for_each_skip.
  - cbn [bind]. unfold post_pass. cbn [rate error samples].
    now rewrite !reset_above_nans.
  - intros i _. apply for_each_skip. intros j _.
    unfold run_pixel, pixel_outcome.
    rewrite while_loop_insufficient; [reflexivity |].
    pose proof (candidates_length mst i j).
    pose proof (update_mst_length s rows cols mst Hm). lia.
Qed.

Lemma X2_too_few_interferograms_witness :
  snd (linear_rate pair_store 3 3 1)
  = Ok {| rate := [[NaN]]; error := [[NaN]]; samples := [[NaN]] |}.
Proof.
  apply (X2_too_few_interferograms pair_store 3 3 1 1 1).
  - reflexivity.
  - exact pair_well_shaped.
  - simpl. lia.
Defined.

(** ** The mask *)

Lemma map2_idem {A B : Type} (f : A -> B -> A) l m :
  (forall a b, In a l -> In b m -> f (f a b) b = f a b) ->
  map2 f (map2 f l m) m = map2 f l m.
Proof.
  revert m; induction l as [| a l IH]; intros [| b m] H; simpl; auto.
  rewrite H by now left. f_equal. apply IH.
  intros a' b' Ha Hb. apply H; now right.
Qed.

Lemma zero_nans_idem m obs :
  zero_nans (zero_nans m obs) obs = zero_nans m obs.
Proof.
  unfold zero_nans. apply map2_idem. intros ml ol _ _.
  apply map2_idem. intros mr orow _ _.
  apply map2_idem. intros x o _ _. now destruct (isnan o).
Qed.

Lemma all2_map2 {A B : Type} (p : A -> B -> bool) (f : A -> B -> A) l :
  forall m,
  (forall a b, p a b = true -> p (f a b) b = true) ->
  all2 p l m = true -> all2 p (map2 f l m) m = true.
Proof.
  induction l as [| x l IH]; intros [| y m] Hf; simpl; auto.
  intros H. apply andb_true_iff in H. destruct H as [Hx Hl].
  now rewrite (Hf x y Hx), (IH m Hf Hl).
Qed.

Lemma same_shape_zero_nans m obs :
  same_shape m obs = true -> same_shape (zero_nans m obs) obs = true.
Proof.
  unfold same_shape, zero_nans. apply all2_map2. intros ml ol.
  apply all2_map2. intros mr orow. apply all2_map2. reflexivity.
Qed.

(** The update of the mask, done a second time, changes nothing more. *)
Lemma mask_nan_idem m obs m' :
  mask_nan m obs = Ok m' -> mask_nan m' obs = Ok m'.
Proof.
  unfold mask_nan. destruct (same_shape m obs) eqn:Es; [| discriminate].
  intros [= <-]. now rewrite (same_shape_zero_nans m obs Es), zero_nans_idem.
Qed.

(** X7: a second call on the arrays the first call left behind finds the
    mask already updated: it leaves the same arrays and returns the same
    result as the first call. *)
Theorem X7_second_call s pthr nsig maxsig :
  linear_rate (fst (linear_rate s pthr nsig maxsig)) pthr nsig maxsig
  = linear_rate s pthr nsig maxsig.
Proof.
  unfold linear_rate at 2 3.
  destruct (grid_shape (s_ifgs s)) as [[rows cols] |] eqn:Hs.
  - unfold update_mst. destruct (s_mst s) as [m |] eqn:Em.
    + destruct (mask_nan m (obs_of s)) as [m' | e] eqn:Eu; cbn [fst].
      * unfold linear_rate. cbn [set_mst s_ifgs]. rewrite Hs.
        unfold update_mst, obs_of, span_of, set_mst.
        cbn [s_ifgs s_vcm s_mst]. fold (obs_of s).
        now rewrite (mask_nan_idem m (obs_of s) m' Eu).
      * unfold linear_rate. rewrite Hs. unfold update_mst.
        now rewrite Em, Eu.
    + cbn [fst]. unfold linear_rate. rewrite Hs. unfold update_mst.
      now rewrite Em.
  - cbn [fst]. unfold linear_rate. now rewrite Hs.
Qed.

Lemma nonzero_from_iff c : forall n k,
  In k (nonzero_from n c) <->
  exists a, k = (n + a)%nat /\ nth_error c a = Some true.
Proof.
  intros n k. split; [apply nonzero_from_In |].
  revert n; induction c as [| b c IH]; intros n (a & -> & Ha);
    [now destruct a |].
  destruct a as [| a]; simpl in Ha.
  - injection Ha as ->. simpl. left. lia.
  - assert (H : In (n + S a)%nat (nonzero_from (S n) c)).
    { apply IH. exists a. split; [lia | assumption]. }
    destruct b; simpl; auto.
Qed.

(** The candidates of a pixel are the interferograms whose mask cell is 1. *)
Lemma candidates_iff m i j n :
  In n (candidates m i j) <->
  exists layer, nth_error m n = Some layer /\ nth j (nth i layer []) 0%Z = 1%Z.
Proof.
  unfold candidates, nonzero, pixel. rewrite nonzero_from_iff. split.
  - intros (a & -> & H). simpl. rewrite !nth_error_map in H.
    destruct (nth_error m a) as [layer |]; [| discriminate].
    exists layer. split; [reflexivity |]. cbn [option_map] in H.
    symmetry. apply Z.eqb_eq. congruence.
  - intros (layer & Hl & H). exists n. split; [reflexivity |].
    rewrite !nth_error_map, Hl. cbn [option_map]. now rewrite H.
Qed.

Lemma nth_ones_layer rows cols i j :
  (i < rows)%nat -> (j < cols)%nat ->
  nth j (nth i (repeat (repeat 1%Z cols) rows) []) 0%Z = 1%Z.
Proof.
  intros Hi Hj. rewrite (nth_repeat_lt _ [] Hi). now apply nth_repeat_lt.
Qed.

Lemma nonzero_from_all k : forall n,
  nonzero_from n (repeat true k) = seq n k.
Proof. induction k as [| k IH]; intros n; simpl; [| rewrite IH]; auto. Qed.

Lemma nth_error_nth_eq {A : Type} (l : list A) (d x : A) k :
  x <> d -> (nth_error l k = Some x <-> nth k l d = x).
Proof.
  intros Hd. split; [apply nth_error_nth |].
  intros H. destruct (Nat.lt_ge_cases k (length l)) as [Hk | Hk].
  - rewrite <- H. now apply nth_error_nth'.
  - rewrite nth_overflow in H by assumption. congruence.
Qed.

Lemma candidates_cell m i j n :
  In n (candidates m i j) <-> cell m n i j = Some 1%Z.
Proof.
  rewrite candidates_iff. unfold cell. split.
  - intros (layer & -> & H).
    destruct (nth_error layer i) as [row |] eqn:Er.
    + rewrite (nth_error_nth layer i [] Er) in H.
      apply (proj2 (nth_error_nth_eq row 0%Z 1%Z j ltac:(discriminate))).
      exact H.
    + apply nth_error_None in Er. rewrite (nth_overflow layer [] Er) in H.
      now destruct j.
  - destruct (nth_error m n) as [layer |]; [| discriminate].
    destruct (nth_error layer i) as [row |] eqn:Er; [| discriminate].
    intros H. exists layer. split; [reflexivity |].
    rewrite (nth_error_nth layer i [] Er). now apply nth_error_nth.
Qed.

(** X10: which interferograms enter the loop of a pixel.  With a mask
    passed in, interferogram [k] is a candidate exactly when its cell of
    the mask, as the caller passed it, is 1 and its observation at the
    pixel is a number; without one, every interferogram is a candidate at
    every pixel of the grid. *)
Theorem X10_candidates s rows cols i j k :
  (forall m mst,
     s_mst s = Some m -> snd (update_mst s rows cols) = Ok mst ->
     (In k (candidates mst i j) <->
      cell m k i j = Some 1%Z /\
      exists y, cell (obs_of s) k i j = Some (Num y))) /\
  (s_mst s = None -> (i < rows)%nat -> (j < cols)%nat ->
   exists mst,
     snd (update_mst s rows cols) = Ok mst /\
     candidates mst i j = seq 0 (length (s_ifgs s))).
Proof.
  unfold update_mst. split.
  - intros m mst ->. unfold mask_nan.
    destruct (same_shape m (obs_of s)); cbn [snd]; [| discriminate].
    intros [= <-]. rewrite candidates_cell, cell_zero_nans.
    destruct (cell m k i j) as [x |];
      [| split; [discriminate | intros [H _]; discriminate]].
    destruct (cell (obs_of s) k i j) as [[| y] |]; cbn [isnan].
    + split; [discriminate | intros [_ [y Hy]]; discriminate].
    + split; [intros H; split; [exact H | now exists y] | tauto].
    + split; [discriminate | intros [_ [y Hy]]; discriminate].
  - intros -> Hi Hj. cbn [snd]. eexists. split; [reflexivity |].
    unfold candidates, nonzero, pixel, ones.
    rewrite !map_repeat, (nth_ones_layer rows cols i j Hi Hj).
    apply nonzero_from_all.
Qed.

Lemma X10_candidates_witness :
  (In 0%nat (candidates [[[1%Z]]; [[0%Z]]] 0 0) <->
   cell [[[1%Z]]; [[1%Z]]] 0 0 0 = Some 1%Z /\
   exists y, cell (obs_of masked_store) 0 0 0 = Some (Num y)) /\
  (In 1%nat (candidates [[[1%Z]]; [[0%Z]]] 0 0) <->
   cell [[[1%Z]]; [[1%Z]]] 1 0 0 = Some 1%Z /\
   exists y, cell (obs_of masked_store) 1 0 0 = Some (Num y)) /\
  exists mst,
    snd (update_mst pair_store 1 1) = Ok mst /\
    candidates mst 0 0 = seq 0 (length (s_ifgs pair_store)).
Proof.
  split; [| split].
  - exact (proj1 (X10_candidates masked_store 1 1 0 0 0) _ _
             eq_refl eq_refl).
  - exact (proj1 (X10_candidates masked_store 1 1 0 0 1) _ _
             eq_refl eq_refl).
  - apply (proj2 (X10_candidates pair_store 1 1 0 0 0));
      [reflexivity | lia | lia].
Defined.

(** ** The fit *)

Lemma gauss_length n : forall rows xs, gauss n rows = Ok xs -> length xs = n.
Proof.
  induction n as [| n IH]; intros rows xs; simpl.
  - now intros [= <-].
  - destruct (pick_pivot rows) as [[p others] |]; [| discriminate].
    destruct (gauss n (map (eliminate p) others)) as [ys |] eqn:E;
      [| discriminate].
    cbn [bind]. intros [= <-]. simpl. f_equal. eapply IH; eassumption.
Qed.

Lemma solve_length a b x : solve a b = Ok x -> length x = length a.
Proof. apply gauss_length. Qed.

Lemma finite_values a y : finite a = Ok y -> y = values a.
Proof.
  unfold finite. revert y; induction a as [| x a IH]; intros y;
    cbn [mapM values map].
  - now intros [= <-].
  - destruct x as [| r]; [discriminate |]. cbn [bind].
    destruct (mapM _ a) as [ys |]; [| discriminate]. cbn [bind].
    intros [= <-]. f_equal. now apply IH.
Qed.

Lemma qr_square A Q Rq : qr A = (Q, Rq) -> Rq * Rq = dot A A.
Proof.
  unfold qr.
  destruct A as [| alpha x]; [intros [= <- <-]; unfold dot; simpl; lra |].
  pose proof (dot_self_nonneg x) as Hx.
  destruct (Reqb (sqrt (dot x x)) 0) eqn:E.
  - apply Reqb_eq in E. apply sqrt_eq_0 in E; [| assumption].
    intros [= <- <-]. rewrite dot_cons, E. lra.
  - intros [= <- <-]. rewrite dot_cons.
    assert (Hs : sqrt (alpha * alpha + dot x x)
                 * sqrt (alpha * alpha + dot x x) = alpha * alpha + dot x x)
      by (apply sqrt_sqrt; nra).
    destruct (Rleb 0 alpha); lra.
Qed.

Lemma sumsq_residuals A : forall b u,
  length A = length b ->
  dot (map2 (fun a c => a * u - c) A b) (map2 (fun a c => a * u - c) A b)
  = u * u * dot A A - 2 * u * dot A b + dot b b.
Proof.
  induction A as [| a A IH]; intros [| c b] u; simpl; try discriminate.
  - intros _. unfold dot; simpl. lra.
  - intros [= H]. rewrite !dot_cons, (IH b u H). lra.
Qed.

(** The estimate [v = (A . b) / (A . A)] minimises the sum of squares of
    [A u - b]. *)
Lemma least_squares A b u :
  length A = length b -> dot A A <> 0 ->
  let res := fun w => map2 (fun a c => a * w - c) A b in
  dot (res (dot A b / dot A A)) (res (dot A b / dot A A))
  <= dot (res u) (res u).
Proof.
  intros Hl Hd. cbv beta zeta. rewrite !sumsq_residuals by assumption.
  pose proof (dot_self_nonneg A) as Hp.
  set (D := dot A A) in *. set (N := dot A b).
  assert (HD : 0 < D) by lra.
  set (v := N / D). assert (Hv : D * v = N) by (unfold v; field; lra).
  assert (Hsq : 0 <= D * ((u - v) * (u - v)))
    by (apply Rmult_le_pos; [lra | apply (Rle_0_sqr (u - v))]).
  replace (v * v * D - 2 * v * N) with (- (D * v * v))
    by (rewrite <- Hv; ring).
  replace (u * u * D - 2 * u * N)
    with (D * ((u - v) * (u - v)) - D * v * v) by (rewrite <- Hv; ring).
  lra.
Qed.

(** What the solver returns for [v]: the quotient of two dot products of
    the whitened design and observation vectors. *)
Lemma solver_rate ifgv B V v err :
  solver ifgv B V = Ok (v, err) ->
  exists T A b,
    cholesky_lower V = Ok T /\ solve T B = Ok A /\
    solve T (values ifgv) = Ok b /\ finite ifgv = Ok (values ifgv) /\
    dot A A <> 0 /\ v = dot A b / dot A A.
Proof.
  unfold solver.
  destruct (cholesky_lower V) as [T |]; [| discriminate]. cbn [bind].
  destruct (solve T B) as [A |] eqn:EA; [| discriminate]. cbn [bind].
  destruct (finite ifgv) as [y |] eqn:Ef; [| discriminate]. cbn [bind].
  pose proof (finite_values ifgv y Ef) as ->.
  destruct (solve T (values ifgv)) as [b |] eqn:Eb; [| discriminate].
  cbn [bind]. destruct (qr A) as [Q Rq] eqn:Eq.
  destruct (Req_dec_T Rq 0) as [E0 | E0].
  { rewrite E0, solve_1_singular. discriminate. }
  assert (Hd : dot A A <> 0).
  { rewrite <- (qr_square A Q Rq Eq). nra. }
  rewrite (qr_fit A b Q Rq Eq Hd). cbn [bind hd].
  destruct (inv V) as [iV |]; [| discriminate]. cbn [bind].
  destruct (inv [[dot B (mat_vec iV B)]]) as [ie |]; [| discriminate].
  cbn [bind]. intros [= <- _]. exists T, A, b. repeat split; auto.
Qed.

(** X9: the rate returned by the solver is the least-squares estimate for
    the whitened system.  With [T] the lower Cholesky factor of [V]
    ([T T^T = V] on the lower triangle), [T A = B] and [T b = ifgv], the
    returned [v] makes the sum of squares of [A u - b] smallest among all
    [u]. *)
Theorem X9_rate_is_least_squares ifgv B V v err :
  square (length V) V -> length B = length V -> length ifgv = length V ->
  solver ifgv B V = Ok (v, err) ->
  exists T A b,
    cholesky_lower V = Ok T /\
    (forall i j, (j <= i < length V)%nat ->
       dot (nth i T []) (nth j T []) = nth j (nth i V []) 0) /\
    mat_vec T A = B /\ mat_vec T b = values ifgv /\
    forall u,
      dot (map2 (fun a c => a * v - c) A b) (map2 (fun a c => a * v - c) A b)
      <= dot (map2 (fun a c => a * u - c) A b)
             (map2 (fun a c => a * u - c) A b).
Proof.
  intros HV HB Hy Hs.
  destruct (solver_rate ifgv B V v err Hs)
    as (T & A & b & HT & HA & Hb & _ & Hd & ->).
  exists T, A, b. split; [assumption |].
  destruct (chol_sound (length V) V T HV HT) as [[HTl HTr] Hprod].
  split; [assumption |].
  assert (HyV : length (values ifgv) = length V)
    by (unfold values; now rewrite length_map).
  split; [| split].
  - apply solve_sound; [congruence | | assumption].
    intros row Hr. rewrite HTl. now apply HTr.
  - apply solve_sound; [congruence | | assumption].
    intros row Hr. rewrite HTl. now apply HTr.
  - intros u. apply (least_squares A b u); [| assumption].
    apply solve_length in HA. apply solve_length in Hb. congruence.
Qed.

Lemma X9_rate_is_least_squares_witness :
  exists T A b,
    cholesky_lower V1 = Ok T /\
    (forall i j, (j <= i < length V1)%nat ->
       dot (nth i T []) (nth j T []) = nth j (nth i V1 []) 0) /\
    mat_vec T A = B1 /\ mat_vec T b = values ifgv1 /\
    forall u,
      dot (map2 (fun a c => a * 1 - c) A b) (map2 (fun a c => a * 1 - c) A b)
      <= dot (map2 (fun a c => a * u - c) A b)
             (map2 (fun a c => a * u - c) A b).
Proof.
  apply (X9_rate_is_least_squares ifgv1 B1 V1 1 (Num (1/5))).
  - split; [reflexivity |]. intros row [<- | [<- | []]]; reflexivity.
  - reflexivity.
  - reflexivity.
  - apply solver_V1.
Defined.

(** ** Which exceptions can escape *)

Lemma mapM_raise {A B : Type} (f : A -> exc B) l e :
  mapM f l = Raise e -> exists x, In x l /\ f x = Raise e.
Proof.
  induction l as [| x l IH]; cbn [mapM]; [discriminate |].
  destruct (f x) as [y |] eqn:E; cbn [bind].
  - destruct (mapM f l) as [ys |]; cbn [bind]; [discriminate |].
    intros [= <-]. destruct (IH eq_refl) as (x0 & Hin & Hx).
    exists x0. split; [now right | assumption].
  - intros [= <-]. exists x. split; [now left | assumption].
Qed.

Lemma mapM_In {A B : Type} (f : A -> exc B) l ys y :
  mapM f l = Ok ys -> In y ys -> exists x, In x l /\ f x = Ok y.
Proof.
  revert ys; induction l as [| x l IH]; intros ys; cbn [mapM].
  - intros [= <-] [].
  - destruct (f x) as [y0 |] eqn:E; [| discriminate]. cbn [bind].
    destruct (mapM f l) as [ys0 |]; [| discriminate]. cbn [bind].
    intros [= <-] [<- | Hin].
    + exists x. split; [now left | assumption].
    + destruct (IH ys0 eq_refl Hin) as (x0 & Hx & Hf).
      exists x0. split; [now right | assumption].
Qed.

Lemma take_raise {A : Type} (a : list A) ind e :
  Forall (fun k => (k < length a)%nat) ind -> take a ind <> Raise e.
Proof.
  intros Hf H. apply mapM_raise in H. destruct H as (k & Hin & Hk).
  rewrite Forall_forall in Hf. specialize (Hf k Hin).
  apply nth_error_Some in Hf. destruct (nth_error a k); congruence.
Qed.

Lemma take_In {A : Type} (a : list A) ind l x :
  take a ind = Ok l -> In x l -> In x a.
Proof.
  intros H Hin. destruct (mapM_In _ _ _ _ H Hin) as (k & _ & Hk).
  destruct (nth_error a k) as [y |] eqn:E; [| discriminate].
  injection Hk as <-. eapply nth_error_In; eassumption.
Qed.

Lemma submatrix_square vcm n ind :
  square n vcm -> Forall (fun k => (k < n)%nat) ind ->
  (forall e, submatrix vcm ind <> Raise e) /\
  (forall V, submatrix vcm ind = Ok V -> square (length ind) V).
Proof.
  intros [Hl Hr] Hf. unfold submatrix.
  destruct (mapM (fun row => take row ind) vcm) as [cs |] eqn:Ec;
    cbn [bind].
  - assert (Hcs : length cs = n)
      by (apply mapM_length in Ec; congruence).
    split.
    + intros e. apply take_raise. now rewrite Hcs.
    + intros V HV. split; [now apply take_length in HV |].
      intros row Hin. apply (take_In cs ind V row HV) in Hin.
      destruct (mapM_In _ _ _ _ Ec Hin) as (r0 & _ & Hr0).
      now apply take_length in Hr0.
  - exfalso. apply mapM_raise in Ec. destruct Ec as (row & Hin & Hrow).
    revert Hrow. apply take_raise. now rewrite (Hr row Hin).
Qed.

Lemma chol_raise n : forall a e, chol n a = Raise e -> e = NotPositiveDefinite.
Proof.
  induction n as [| n IH]; intros a e; simpl; [discriminate |].
  destruct (Rleb _ 0); [now intros [= <-] |].
  match goal with |- context [chol n ?s] =>
    destruct (chol n s) as [L |] eqn:E end; cbn [bind]; [discriminate |].
  intros [= <-]. eapply IH; eassumption.
Qed.

Lemma gauss_raise n : forall rows e,
  gauss n rows = Raise e -> e = SingularMatrix.
Proof.
  induction n as [| n IH]; intros rows e; simpl; [discriminate |].
  destruct (pick_pivot rows) as [[p others] |]; [| now intros [= <-]].
  destruct (gauss n (map (eliminate p) others)) as [ys |] eqn:E;
    cbn [bind]; [discriminate |].
  intros [= <-]. eapply IH; eassumption.
Qed.

Lemma inv_raise a e : inv a = Raise e -> e = SingularMatrix.
Proof.
  unfold inv. destruct (mapM _ _) as [cs |] eqn:E; cbn [bind];
    [discriminate |].
  intros [= <-]. apply mapM_raise in E. destruct E as (j & _ & Hj).
  eapply gauss_raise; eassumption.
Qed.

Lemma inv_square a iV : inv a = Ok iV -> square (length a) iV.
Proof.
  unfold inv. destruct (mapM _ _) as [cs |] eqn:E; cbn [bind];
    [| discriminate].
  intros [= <-]. apply mapM_length in E. rewrite length_seq in E. split.
  - now rewrite length_map, length_seq.
  - intros row Hin. apply in_map_iff in Hin. destruct Hin as (i & <- & _).
    now rewrite length_map.
Qed.

Lemma finite_raise a e : finite a = Raise e -> e = NotFinite.
Proof.
  intros H. apply mapM_raise in H. destruct H as ([| r] & _ & Hx);
    congruence.
Qed.

Lemma transpose_square k m : square k m -> square k (transpose m).
Proof.
  intros [Hl Hr]. unfold transpose.
  assert (Hh : length (hd [] m) = k).
  { destruct m as [| r0 m]; [exact Hl | apply Hr; now left]. }
  rewrite Hh. split; [now rewrite length_map, length_seq |].
  intros row Hin. apply in_map_iff in Hin. destruct Hin as (j & <- & _).
  unfold column. now rewrite length_map.
Qed.

Lemma cholesky_upper_square k a w :
  square k a -> cholesky_upper a = Ok w -> square k w.
Proof.
  intros Ha. unfold cholesky_upper, cholesky_lower.
  pose proof (transpose_square k a Ha) as Ht.
  destruct Ht as [Htl Htr]. rewrite Htl.
  destruct (chol k (transpose a)) as [L |] eqn:E; cbn [bind];
    [| discriminate].
  intros [= <-]. apply transpose_square.
  now destruct (chol_sound k (transpose a) L (conj Htl Htr) E).
Qed.

Lemma cholesky_upper_raise a e :
  cholesky_upper a = Raise e -> e = NotPositiveDefinite.
Proof.
  unfold cholesky_upper, cholesky_lower.
  destruct (chol _ _) as [L |] eqn:E; cbn [bind]; [discriminate |].
  intros [= <-]. eapply chol_raise; eassumption.
Qed.

Lemma solver_raise ifgv B V e : solver ifgv B V = Raise e -> numerical e.
Proof.
  unfold solver, numerical.
  destruct (cholesky_lower V) as [T |] eqn:ET; cbn [bind].
  2: { intros [= <-]. left. eapply chol_raise; exact ET. }
  destruct (solve T B) as [A |] eqn:EA; cbn [bind].
  2: { intros [= <-]. right; left. eapply gauss_raise; exact EA. }
  destruct (finite ifgv) as [y |] eqn:Ef; cbn [bind].
  2: { intros [= <-]. right; right. eapply finite_raise; exact Ef. }
  destruct (solve T y) as [b |] eqn:Eb; cbn [bind].
  2: { intros [= <-]. right; left. eapply gauss_raise; exact Eb. }
  destruct (qr A) as [Q Rq].
  destruct (solve [[Rq]] [dot Q b]) as [x |] eqn:Ex; cbn [bind].
  2: { intros [= <-]. right; left. eapply gauss_raise; exact Ex. }
  destruct (inv V) as [iV |] eqn:Ei; cbn [bind].
  2: { intros [= <-]. right; left. eapply inv_raise; exact Ei. }
  destruct (inv [[dot B (mat_vec iV B)]]) as [ie |] eqn:Ee; cbn [bind];
    [discriminate |].
  intros [= <-]. right; left. eapply inv_raise; exact Ee.
Qed.

Lemma first_row_from_found c : forall n,
  (exists row, In row c /\ existsb (fun x => x) row = true) ->
  exists k, first_row_from n c = Ok k.
Proof.
  induction c as [| r c IH]; intros n (row & Hin & Hrow); [destruct Hin |].
  simpl. destruct (existsb (fun x => x) r) eqn:E; [now exists n |].
  destruct Hin as [-> | Hin]; [congruence |].
  apply IH. now exists row.
Qed.

Lemma scaled_rows_square k w r :
  square k w -> length r = k -> square k (scaled_rows w r).
Proof.
  intros [Hl Hr] Hlr. unfold scaled_rows. split.
  - rewrite length_map2. lia.
  - intros row Hin. apply In_map2 in Hin.
    destruct Hin as (r0 & x & -> & Hr0 & _). rewrite length_map.
    now apply Hr.
Qed.

(** On a square system with at least one observation the residual test
    raises nothing but what the inverse and the factorisation raise: the
    maximum is taken over a non-empty diagonal and is found in [wr]. *)
Lemma worst_residual_raise ifgv B V v k e :
  (1 <= k)%nat -> square k V -> length B = k -> length ifgv = k ->
  worst_residual ifgv B V v = Raise e -> numerical e.
Proof.
  intros Hk HV HB Hy. unfold worst_residual, numerical.
  destruct (inv V) as [iV |] eqn:Ei; cbn [bind].
  2: { intros [= <-]. right; left. eapply inv_raise; exact Ei. }
  destruct (cholesky_upper iV) as [w |] eqn:Ew; cbn [bind].
  2: { intros [= <-]. left. eapply cholesky_upper_raise; exact Ew. }
  assert (HiV : square k iV).
  { destruct HV as [HVl _]. rewrite <- HVl. now apply inv_square. }
  pose proof (cholesky_upper_square k iV w HiV Ew) as Hw.
  set (r := map2 (fun t y => t * v - y) B (values ifgv)).
  assert (Hr : length r = k).
  { unfold r, values. rewrite length_map2, length_map. lia. }
  pose proof (scaled_rows_square k w r Hw Hr) as [Hwl Hwr].
  set (wr := scaled_rows w r) in *.
  destruct (np_max (diag wr)) as [maxr |] eqn:Em; cbn [bind].
  2: { exfalso. unfold diag in Em. rewrite Hwl in Em.
       destruct k; [lia | discriminate]. }
  apply np_max_spec in Em. destruct Em as [Hin _].
  unfold diag in Hin. apply in_map_iff in Hin.
  destruct Hin as (i & Hi & Hiseq). apply in_seq in Hiseq.
  assert (Hrow : In (nth i wr []) wr) by (apply nth_In; lia).
  assert (Hmax : In maxr (nth i wr [])).
  { rewrite <- Hi. apply nth_In. rewrite (Hwr _ Hrow). lia. }
  destruct (first_row_from_found
              (map (map (fun x => Reqb x maxr)) wr) 0) as [maxi Hmaxi].
  { exists (map (fun x => Reqb x maxr) (nth i wr [])). split.
    - now apply in_map.
    - now apply existsb_eq_In. }
  rewrite Hmaxi. discriminate.
Qed.

Section Escapes.

Variable obs_ij : list val.
Variable span : vec.
Variable vcm : mat.
Variable pthr : Z.
Variable nsig : R.
Variable n : nat.

Hypothesis obs_length : length obs_ij = n.
Hypothesis span_length : length span = n.
Hypothesis vcm_square : square n vcm.

Lemma body_raise ind e :
  Forall (fun k => (k < n)%nat) ind -> (1 <= length ind)%nat ->
  body obs_ij span vcm nsig ind = Raise e -> numerical e.
Proof.
  intros Hf Hk. unfold body.
  destruct (take obs_ij ind) as [ifgv | e0] eqn:Ei; cbn [bind].
  2: { exfalso. revert Ei. apply take_raise. now rewrite obs_length. }
  destruct (take span ind) as [B | e0] eqn:EB; cbn [bind].
  2: { exfalso. revert EB. apply take_raise. now rewrite span_length. }
  destruct (submatrix_square vcm n ind vcm_square Hf) as [Hne Hsq].
  destruct (submatrix vcm ind) as [V | e0] eqn:EV; cbn [bind].
  2: { exfalso. now apply (Hne e0). }
  specialize (Hsq V eq_refl).
  destruct (solver ifgv B V) as [[v err] | e0] eqn:Es; cbn [bind].
  2: { intros [= <-]. eapply solver_raise; exact Es. }
  destruct (worst_residual ifgv B V v) as [[maxr maxi] | e0] eqn:Ew;
    cbn [bind].
  - destruct (Rltb nsig maxr); discriminate.
  - intros [= <-]. apply take_length in Ei. apply take_length in EB.
    eapply (worst_residual_raise ifgv B V v (length ind)); eauto.
Qed.

Lemma np_delete_in_range ind maxi ind' :
  Forall (fun k => (k < n)%nat) ind -> np_delete ind maxi = Ok ind' ->
  Forall (fun k => (k < n)%nat) ind'.
Proof.
  intros Hf. unfold np_delete.
  destruct (maxi <? length ind)%nat; [| discriminate]. intros [= <-].
  rewrite Forall_forall in *. intros k Hin. apply Hf.
  apply in_app_or in Hin. destruct Hin as [Hin | Hin].
  - rewrite <- (firstn_skipn maxi ind). apply in_or_app. now left.
  - rewrite <- (firstn_skipn (S maxi) ind). apply in_or_app. now right.
Qed.

Lemma while_loop_failed fuel : forall ind e,
  (1 <= pthr)%Z -> Forall (fun k => (k < n)%nat) ind ->
  while_loop obs_ij span vcm pthr nsig fuel ind = Failed e -> numerical e.
Proof.
  induction fuel as [| fuel IH]; intros ind e Hp Hf; simpl.
  - destruct (Z.of_nat (length ind) <? pthr)%Z; discriminate.
  - destruct (Z.of_nat (length ind) <? pthr)%Z eqn:E; [discriminate |].
    apply Z.ltb_ge in E.
    destruct (body obs_ij span vcm nsig ind)
      as [[maxi | v err k] | e0] eqn:Eb.
    + destruct (np_delete ind maxi) as [ind' | e0] eqn:Ed.
      * apply IH; [assumption |]. eapply np_delete_in_range; eassumption.
      * apply body_discard_index in Eb. unfold np_delete in Ed.
        apply Nat.ltb_lt in Eb. rewrite Eb in Ed. discriminate.
    + discriminate.
    + intros [= <-]. eapply body_raise; [exact Hf | lia | exact Eb].
Qed.

End Escapes.

Lemma for_each_raise_inv {S : Type} l (f : nat -> S -> exc S) : forall s e,
  for_each l f s = Raise e -> exists x s', In x l /\ f x s' = Raise e.
Proof.
  induction l as [| x l IH]; intros s e; simpl; [discriminate |].
  destruct (f x s) as [s1 |] eqn:E; cbn [bind].
  - intros H. destruct (IH s1 e H) as (x0 & s' & Hin & Hx).
    exists x0, s'. split; [now right | assumption].
  - intros [= <-]. exists x, s. split; [now left | assumption].
Qed.

Lemma candidates_in_range mst i j :
  Forall (fun k => (k < length mst)%nat) (candidates mst i j).
Proof.
  apply Forall_forall. intros k Hk. apply candidates_iff in Hk.
  destruct Hk as (layer & Hl & _). apply nth_error_Some. congruence.
Qed.

(** X8: on interferograms of one shape, with a square covariance matrix
    and [pthr >= 1], the only exceptions that leave [linear_rate] come from
    the numbers: a submatrix that is not positive definite, a singular
    system, or an observation that is not finite.  The index arrays never
    run out of range and the maximum is never taken of an empty array. *)
Theorem X8_only_numerical_exceptions s pthr nsig maxsig rows cols e :
  grid_shape (s_ifgs s) = Ok (rows, cols) ->
  well_shaped s rows cols ->
  (1 <= pthr)%Z ->
  snd (linear_rate s pthr nsig maxsig) = Raise e ->
  numerical e.
Proof.
  intros Hs Hw Hp. destruct (well_shaped_updated s rows cols Hw) as [mst Hm].
  destruct Hw as (_ & Hvcm & _).
  rewrite (linear_rate_unfold s pthr nsig maxsig rows cols mst Hs Hm).
  cbn [snd].
  destruct (all_pixels _ _ _ _ _ _ _ _ _) as [g |] eqn:E; cbn [bind];
    [discriminate |].
  intros [= <-]. unfold all_pixels in E.
  apply for_each_raise_inv in E. destruct E as (i & g1 & _ & E).
  apply for_each_raise_inv in E. destruct E as (j & g2 & _ & E).
  unfold run_pixel in E.
  destruct (pixel_outcome _ _ _ _ _ _ i j) as [v err n | | e1 |] eqn:Eo;
    try discriminate.
  injection E as <-. unfold pixel_outcome in Eo.
  apply (while_loop_failed _ _ _ _ _ (length (s_ifgs s))) in Eo;
    try assumption.
  - unfold pixel, obs_of. now rewrite !length_map.
  - unfold span_of. now rewrite length_map.
  - pose proof (update_mst_length s rows cols mst Hm) as Hl.
    eapply Forall_impl; [| apply candidates_in_range].
    intros k Hk. cbv beta in Hk. lia.
Qed.

Lemma X8_only_numerical_exceptions_witness :
  snd (linear_rate split_store 2 3 1) = Raise NotPositiveDefinite /\
  numerical NotPositiveDefinite.
Proof.
  assert (Hrun : snd (linear_rate split_store 2 3 1)
                 = Raise NotPositiveDefinite) by (now rewrite split_run).
  split; [exact Hrun |].
  apply (X8_only_numerical_exceptions split_store 2 3 1 1 2).
  - reflexivity.
  - split; [| split].
    + intros x [<- | [<- | [<- | []]]]; split; try reflexivity;
        intros row [<- | []]; reflexivity.
    + split; [reflexivity |].
      intros row [<- | [<- | [<- | []]]]; reflexivity.
    + intros m [= <-]. split; [reflexivity |].
      intros layer [<- | [<- | [<- | []]]]; split; try reflexivity;
        intros row [<- | []]; reflexivity.
  - lia.
  - exact Hrun.
Defined.

(** ** Rescaled and noise-free observations *)

Lemma dot_scale_r c u w : dot u (map (Rmult c) w) = c * dot u w.
Proof.
  revert w; induction u as [| a u IH]; intros [| b w];
    try (unfold dot; simpl; lra).
  simpl map. rewrite !dot_cons, IH. lra.
Qed.

Lemma pick_pivot_scale c rows :
  pick_pivot (map (fun r => (fst r, c * snd r)) rows)
  = match pick_pivot rows with
    | Some (p, others) =>
        Some ((fst p, c * snd p),
              map (fun r => (fst r, c * snd r)) others)
    | None => None
    end.
Proof.
  induction rows as [| row rows IH]; [reflexivity |]. simpl.
  destruct (Reqb (hd 0 (fst row)) 0); [| reflexivity].
  rewrite IH. now destruct (pick_pivot rows) as [[p others] |].
Qed.

Lemma gauss_scale c n : forall rows,
  gauss n (map (fun r => (fst r, c * snd r)) rows)
  = match gauss n rows with
    | Ok xs => Ok (map (Rmult c) xs)
    | Raise e => Raise e
    end.
Proof.
  induction n as [| n IH]; intros rows; [reflexivity |]. simpl.
  rewrite pick_pivot_scale.
  destruct (pick_pivot rows) as [[p others] |]; [| reflexivity].
  rewrite map_map.
  rewrite (map_ext
             (fun x => eliminate (fst p, c * snd p) (fst x, c * snd x))
             (fun x => (fun r => (fst r, c * snd r)) (eliminate p x))).
  2: { intros r. unfold eliminate. cbn [fst snd]. f_equal. ring. }
  rewrite <- (map_map (eliminate p) (fun r => (fst r, c * snd r))), IH.
  destruct (gauss n (map (eliminate p) others)) as [xs |]; cbn [bind];
    [| reflexivity].
  cbn [fst snd map]. do 2 f_equal. rewrite dot_scale_r. unfold Rdiv. ring.
Qed.

Lemma solve_scale c a b :
  solve a (map (Rmult c) b)
  = match solve a b with
    | Ok xs => Ok (map (Rmult c) xs)
    | Raise e => Raise e
    end.
Proof.
  unfold solve. rewrite <- gauss_scale. f_equal.
  revert b; induction a as [| r a IH]; intros [| y b]; simpl; auto.
  now rewrite IH.
Qed.

Lemma values_scaled c a :
  values (map (fun x => match x with Num r => Num (c * r) | NaN => NaN end) a)
  = map (Rmult c) (values a).
Proof.
  unfold values. rewrite !map_map. apply map_ext_in.
  intros [| r] _; [lra | reflexivity].
Qed.

Lemma finite_scaled c a y :
  finite a = Ok y ->
  finite (map (fun x => match x with Num r => Num (c * r) | NaN => NaN end)
              a)
  = Ok (map (Rmult c) y).
Proof.
  unfold finite. revert y; induction a as [| x a IH]; intros y;
    cbn [mapM map].
  - now intros [= <-].
  - destruct x as [| r]; [discriminate |]. cbn [bind].
    destruct (mapM _ a) as [ys |]; [| discriminate]. cbn [bind].
    intros [= <-]. now rewrite (IH ys eq_refl).
Qed.

(** X13: the fit is homogeneous in the observations: multiplying every
    observation by [c] (a change of unit) multiplies the rate by [c] and
    leaves the standard error as it was. *)
Theorem X13_rate_scales_with_observations c ifgv B V v err :
  solver ifgv B V = Ok (v, err) ->
  solver (map (fun x => match x with Num r => Num (c * r) | NaN => NaN end)
              ifgv) B V
  = Ok (c * v, err).
Proof.
  unfold solver.
  destruct (cholesky_lower V) as [T |]; [| discriminate]. cbn [bind].
  destruct (solve T B) as [A |]; [| discriminate]. cbn [bind].
  destruct (finite ifgv) as [y |] eqn:Ef; [| discriminate]. cbn [bind].
  rewrite (finite_scaled c ifgv y Ef). cbn [bind]. rewrite solve_scale.
  destruct (solve T y) as [b |]; [| discriminate]. cbn [bind].
  destruct (qr A) as [Q Rq] eqn:Eq.
  destruct (Req_dec_T Rq 0) as [E0 | E0].
  { rewrite E0, solve_1_singular. discriminate. }
  rewrite !(solve_1 Rq) by assumption. cbn [bind hd].
  destruct (inv V) as [iV |]; [| discriminate]. cbn [bind].
  destruct (inv [[dot B (mat_vec iV B)]]) as [ie |]; [| discriminate].
  cbn [bind]. intros [= <- <-]. do 2 f_equal.
  rewrite dot_scale_r. unfold Rdiv. ring.
Qed.

Lemma X13_rate_scales_with_observations_witness :
  solver (map (fun x => match x with Num r => Num (1000 * r) | NaN => NaN end)
              ifgv1) B1 V1
  = Ok (1000 * 1, Num (1/5)).
Proof.
  exact (X13_rate_scales_with_observations 1000 ifgv1 B1 V1 1 (Num (1/5))
           solver_V1).
Defined.

Lemma values_on_line c B :
  values (map (fun t => Num (c * t)) B) = map (Rmult c) B.
Proof. unfold values. now rewrite map_map. Qed.

Lemma residuals_on_line c B x :
  In x (map2 (fun t y => t * c - y) B (map (Rmult c) B)) -> x = 0.
Proof.
  induction B as [| t B IH]; simpl; [tauto |].
  intros [<- | H]; [ring | now apply IH].
Qed.

(** X12: observations that lie exactly on a line through the origin,
    [y = c t], are fitted exactly: whenever the solver returns, the rate it
    returns is [c], and the residuals of line 92 all vanish (in exact
    arithmetic). *)
Theorem X12_noise_free_rate c B V v err :
  solver (map (fun t => Num (c * t)) B) B V = Ok (v, err) ->
  v = c /\
  forall x,
    In x (map2 (fun t y => t * v - y) B
               (values (map (fun t => Num (c * t)) B))) ->
    x = 0.
Proof.
  intros H. assert (Hv : v = c).
  { apply solver_rate in H.
    destruct H as (T & A & b & _ & HA & Hb & _ & Hd & ->).
    rewrite values_on_line, solve_scale, HA in Hb. injection Hb as <-.
    rewrite dot_scale_r. field. assumption. }
  split; [exact Hv |]. subst v. rewrite values_on_line.
  intros x. apply residuals_on_line.
Qed.

Lemma X12_noise_free_rate_witness :
  solver (map (fun t => Num (2 * t)) [3; 4]) [3; 4] I2
  = Ok (2, Num (1/5)) /\
  2 = 2 /\
  forall x,
    In x (map2 (fun t y => t * 2 - y) [3; 4]
               (values (map (fun t => Num (2 * t)) [3; 4]))) ->
    x = 0.
Proof.
  assert (H : solver (map (fun t => Num (2 * t)) [3; 4]) [3; 4] I2
              = Ok (2, Num (1/5))).
  { cbn [map]. replace (2 * 3) with 6 by lra. replace (2 * 4) with 8 by lra.
    apply solver_pair. }
  split; [exact H |].
  exact (X12_noise_free_rate 2 [3; 4] I2 2 (Num (1/5)) H).
Defined.

(** ** The thresholds *)

Lemma val_gt_mono x m m' : m <= m' -> val_gt x m = false -> val_gt x m' = false.
Proof.
  destruct x as [| r]; [reflexivity |]. cbn [val_gt]. intros Hm H.
  apply Rltb_false. destruct (Rle_lt_dec r m) as [Hle | Hlt]; [lra |].
  apply Rltb_true in Hlt. congruence.
Qed.

Lemma linear_rate_any_maxsig s pthr nsig maxsig maxsig' g :
  snd (linear_rate s pthr nsig maxsig) = Ok g ->
  exists g', snd (linear_rate s pthr nsig maxsig') = Ok g'.
Proof.
  unfold linear_rate.
  destruct (grid_shape (s_ifgs s)) as [[rows cols] |]; [| discriminate].
  destruct (update_mst s rows cols) as [s' [mst | e]]; cbn [snd bind];
    [| discriminate].
  destruct (all_pixels _ _ _ _ _ _ _ _ _) as [g1 |]; [| discriminate].
  cbn [bind]. intros _. now eexists.
Qed.

(** X11: [maxsig] only filters.  The arrays the call leaves behind, whether
    it returns or raises, and what it raises, do not depend on [maxsig];
    nor do the sample counts it returns; and a rate or an error that is
    reported under [maxsig] is reported, with the same value, under every
    larger threshold. *)
Theorem X11_maxsig_only_filters s pthr nsig maxsig maxsig' :
  fst (linear_rate s pthr nsig maxsig')
  = fst (linear_rate s pthr nsig maxsig) /\
  (forall e, snd (linear_rate s pthr nsig maxsig) = Raise e ->
             snd (linear_rate s pthr nsig maxsig') = Raise e) /\
  (forall g, snd (linear_rate s pthr nsig maxsig) = Ok g ->
     exists g',
       snd (linear_rate s pthr nsig maxsig') = Ok g' /\
       (forall i j, get2 (samples g') i j = get2 (samples g) i j) /\
       (maxsig <= maxsig' ->
        forall i j x,
          (get2 (rate g) i j = Num x -> get2 (rate g') i j = Num x) /\
          (get2 (error g) i j = Num x -> get2 (error g') i j = Num x))).
Proof.
  split; [| split].
  - unfold linear_rate.
    destruct (grid_shape (s_ifgs s)) as [[rows cols] |]; [| reflexivity].
    now destruct (update_mst s rows cols).
  - intros e. unfold linear_rate.
    destruct (grid_shape (s_ifgs s)) as [[rows cols] |]; [| auto].
    destruct (update_mst s rows cols) as [s' [mst | e0]]; cbn [snd bind];
      [| auto].
    destruct (all_pixels _ _ _ _ _ _ _ _ _) as [g1 |]; cbn [bind];
      [discriminate | auto].
  - intros g Hg.
    destruct (linear_rate_any_maxsig s pthr nsig maxsig maxsig' g Hg)
      as [g' Hg'].
    exists g'. split; [assumption |].
    destruct (linear_rate_shape s pthr nsig maxsig g Hg)
      as (rows & cols & Hs).
    destruct (linear_rate_updated s pthr nsig maxsig rows cols g Hs Hg)
      as [mst Hu].
    destruct (linear_rate_triples s pthr nsig maxsig rows cols mst g
                Hs Hu Hg) as [(Hr & He & Hn) Hat].
    destruct (linear_rate_triples s pthr nsig maxsig' rows cols mst g'
                Hs Hu Hg') as [(Hr' & He' & Hn') Hat'].
    assert (Hcell : forall i j,
              get2 (samples g') i j = get2 (samples g) i j /\
              (maxsig <= maxsig' ->
               forall x,
                 (get2 (rate g) i j = Num x ->
                  get2 (rate g') i j = Num x) /\
                 (get2 (error g) i j = Num x ->
                  get2 (error g') i j = Num x))).
    { intros i j.
      destruct (Nat.lt_ge_cases i rows) as [Hi | Hi];
        [destruct (Nat.lt_ge_cases j cols) as [Hj | Hj] |].
      - specialize (Hat i j Hi Hj). specialize (Hat' i j Hi Hj).
        unfold triple_at, capped in Hat, Hat'.
        destruct (stamp _ _) as [[r0 e0] n0].
        destruct (val_gt e0 maxsig) eqn:E.
        + injection Hat as -> -> ->.
          destruct (val_gt e0 maxsig'); injection Hat' as -> -> ->;
            repeat split; intros; discriminate.
        + injection Hat as -> -> ->. split.
          * now destruct (val_gt e0 maxsig'); injection Hat' as _ _ ->.
          * intros Hm. rewrite (val_gt_mono e0 maxsig maxsig' Hm E) in Hat'.
            injection Hat' as -> -> _. intros x. split; auto.
      - rewrite !(get2_outside rows cols) by (assumption || lia).
        repeat split; intros; discriminate.
      - rewrite !(get2_outside rows cols) by (assumption || lia).
        repeat split; intros; discriminate. }
    split.
    + intros i j. apply Hcell.
    + intros Hm i j x. now apply Hcell.
Qed.

Lemma X11_maxsig_only_filters_witness :
  exists g',
    snd (linear_rate pair_store 2 3 2) = Ok g' /\
    get2 (rate g') 0 0 = Num 2 /\
    get2 (error g') 0 0 = Num (1/5) /\
    get2 (samples g') 0 0 = Num 2.
Proof.
  destruct (proj2 (proj2 (X11_maxsig_only_filters pair_store 2 3 1 2))
              _ pair_run_loose) as (g' & Hg' & Hn & Hv).
  exists g'. split; [exact Hg' |].
  assert (Hm : 1 <= 2) by lra.
  destruct (Hv Hm 0%nat 0%nat 2) as [Hrate _].
  destruct (Hv Hm 0%nat 0%nat (1/5)) as [_ Herr].
  split; [now apply Hrate |]. split; [now apply Herr |].
  now rewrite Hn.
Defined.

(** X14: a pixel whose loop converges with the threshold [pthr] converges
    to the same rate, error and count with every smaller threshold. *)
Theorem X14_smaller_pthr_keeps_result obs_ij span vcm pthr pthr' nsig fuel :
  forall ind v err n,
  (pthr' <= pthr)%Z ->
  while_loop obs_ij span vcm pthr nsig fuel ind = Converged v err n ->
  while_loop obs_ij span vcm pthr' nsig fuel ind = Converged v err n.
Proof.
  induction fuel as [| fuel IH]; intros ind v err n Hp; simpl.
  - destruct (Z.of_nat (length ind) <? pthr)%Z; discriminate.
  - destruct (Z.of_nat (length ind) <? pthr)%Z eqn:E; [discriminate |].
    apply Z.ltb_ge in E.
    assert (E' : (Z.of_nat (length ind) <? pthr')%Z = false)
      by (apply Z.ltb_ge; lia).
    rewrite E'.
    destruct (body obs_ij span vcm nsig ind) as [[maxi | v0 e0 n0] | e];
      try discriminate; [| auto].
    destruct (np_delete ind maxi) as [ind' | e]; [| discriminate].
    now apply IH.
Qed.

Lemma X14_smaller_pthr_keeps_result_witness :
  while_loop [Num 6; Num 8] [3; 4] I2 1 3 1 [0; 1]%nat
  = Converged 2 (Num (1/5)) 2.
Proof.
  apply (X14_smaller_pthr_keeps_result [Num 6; Num 8] [3; 4] I2 2 1 3 1).
  - lia.
  - cbn [length while_loop]. change (Z.of_nat 2 <? 2)%Z with false.
    cbv iota. now rewrite body_pair.
Defined.
